(** * ht.h : open-addressing hash table with linear probing and FNV-1a

    A shallow embedding of [src/ht/ht.h].  Machine integers ([size_t],
    [uint64_t]) are [Z] with the 64-bit wrap-around written out, the slot
    array is a list accessed by index, pointers to C strings carry their
    address next to the bytes they point to, and every operation returns an
    [outcome] so that undefined behaviour and a probe loop that is still
    running are visible in the model.  The source never tests what [malloc]
    and [calloc] return: the operations come once for the run in which every
    request is met, and once under an allocator that can refuse
    ([ht_new_map_with], [ht_expand_with], [ht_set_with]). *)

From Stdlib Require Import ZArith Lia Ascii String.
From stdpp Require Import base list.

Local Open Scope Z_scope.

(** ** Machine integers *)

(** [size_t] and [uint64_t] are both 64 bits wide on the targets of ht.h
    (its constants carry the [UL] suffix). *)
Definition wrap64 (z : Z) : Z := z mod 2 ^ 64.

(** [#define FNV_OFFSET_BASIS 14695981039346656037UL] *)
Definition FNV_OFFSET_BASIS : Z := 14695981039346656037.
(** [#define FNV_PRIME 1099511628211UL] *)
Definition FNV_PRIME : Z := 1099511628211.

(** ** Pointers *)

(** A non-null [const char *]: the address, and the bytes stored from that
    address on.  The model buffer ends where the list ends; reading there
    yields the terminator, like reading a ['\0'] inside the list. *)
Record c_string : Type := CString { c_addr : Z; c_bytes : string }.

(** [const char *]; [None] is [NULL]. *)
Definition char_ptr : Type := option c_string.

(** [void *] seen as an address; [0] is [NULL]. *)
Definition void_ptr : Type := Z.

(** [(uint64_t)(unsigned char)c] *)
Definition uchar (c : ascii) : Z := Z.of_N (N_of_ascii c).

(** ** Outcomes *)

Inductive fault : Type :=
| DivByZero      (* [x % 0] *)
| OutOfBounds    (* access outside an allocated array *)
| NullDeref.     (* dereference of [NULL] *)

Inductive outcome (A : Type) : Type :=
| Ret (a : A)            (* the call returns [a] *)
| Fault (f : fault)      (* the call runs into undefined behaviour *)
| OutOfFuel.             (* the probe loop is still running *)

Arguments Ret {A} a.
Arguments Fault {A} f.
Arguments OutOfFuel {A}.

Definition bind {A B} (o : outcome A) (f : A -> outcome B) : outcome B :=
  match o with
  | Ret a => f a
  | Fault u => Fault u
  | OutOfFuel => OutOfFuel
  end.

Notation "x <- o ;; k" := (bind o (fun x => k))
  (at level 100, o at next level, k at level 200, right associativity).

(** ** Data model *)

(** [typedef struct { const char *key; void* value; } ht_entry;] *)
Record ht_entry : Type := Entry { key : char_ptr; value : void_ptr }.

(** [typedef struct { ht_entry *ht; size_t capacity; size_t items; } Map;]
    The list [ht] is the allocated block: an access outside of it is a
    fault whatever [capacity] says. *)
Record Map : Type := MkMap { ht : list ht_entry; capacity : Z; items : Z }.

(** A [calloc]ed entry: both fields are zero. *)
Definition zero_entry : ht_entry := Entry None 0.

(** The block [calloc(n, sizeof(ht_entry))] returns when the request is
    met: [n] zeroed slots.  [calloc_with] below is [calloc] with its
    failure; [ht_new_map], [ht_expand], [ht_set] and [run_sets] are the
    operations in a run where every request is met, [ht_new_map_with],
    [ht_expand_with], [ht_set_with] and [run_sets_with] the operations under
    an allocator that can refuse. *)
Definition calloc (n : Z) : list ht_entry := replicate (Z.to_nat n) zero_entry.

(** [m->ht[i]], read. *)
Definition slot (l : list ht_entry) (i : Z) : outcome ht_entry :=
  if i <? 0 then Fault OutOfBounds
  else match l !! Z.to_nat i with
       | Some e => Ret e
       | None => Fault OutOfBounds
       end.

(** [m->ht[i] = e], write. *)
Definition store (l : list ht_entry) (i : Z) (e : ht_entry)
  : outcome (list ht_entry) :=
  _ <- slot l i ;; Ret (<[Z.to_nat i := e]> l).

(** ** Operations *)

Definition ht_length (m : Map) : Z := items m.

Definition ht_new_map (capacity : Z) : Map :=
  MkMap (calloc capacity) capacity 0.

(** The loop of [ht__hash]: [hash] is the accumulator on entry, [key] the
    bytes from [key[i]] on. *)
Fixpoint ht__hash_from (key : string) (hash : Z) : Z :=
  match key with
  | EmptyString => hash
  | String c rest =>
      if uchar c =? 0 then hash
      else
        let hash := Z.lxor hash (uchar c) in
        let hash := wrap64 (hash * FNV_PRIME) in
        ht__hash_from rest hash
  end.

Definition ht__hash (key : string) : Z := ht__hash_from key FNV_OFFSET_BASIS.

(** [strcmp] of libc on the two buffers: the difference of the first pair of
    bytes that differ, [0] when both strings end together. *)
Fixpoint strcmp (a b : string) : Z :=
  match a, b with
  | EmptyString, EmptyString => 0
  | EmptyString, String cb _ => 0 - uchar cb
  | String ca _, EmptyString => uchar ca - 0
  | String ca ra, String cb rb =>
      if uchar ca =? uchar cb
      then (if uchar ca =? 0 then 0 else strcmp ra rb)
      else uchar ca - uchar cb
  end.

(** [strcmp(p, q)] on pointers: either one being [NULL] is a fault. *)
Definition strcmp_ptr (p q : char_ptr) : outcome Z :=
  match p, q with
  | Some a, Some b => Ret (strcmp (c_bytes a) (c_bytes b))
  | _, _ => Fault NullDeref
  end.

(** [index++; if (index >= m->capacity) index = 0;] *)
Definition next_index (m : Map) (index : Z) : Z :=
  let index := wrap64 (index + 1) in
  if index >=? capacity m then 0 else index.

(** [ht_entry_set].  [fuel] bounds the number of times the loop condition
    is evaluated. *)
Fixpoint ht_entry_set (fuel : nat) (m : Map) (index : Z)
    (k : char_ptr) (v : void_ptr) : outcome (char_ptr * Map) :=
  match fuel with
  | O => OutOfFuel
  | S fuel =>
      e <- slot (ht m) index ;;
      if negb (value e =? 0) then
        c <- strcmp_ptr (key e) k ;;
        if c =? 0 then
          l <- store (ht m) index (Entry (key e) v) ;;
          Ret (key e, MkMap l (capacity m) (items m))
        else ht_entry_set fuel m (next_index m index) k v
      else
        l <- store (ht m) index (Entry k v) ;;
        Ret (k, MkMap l (capacity m) (wrap64 (items m + 1)))
  end.

(** The copy loop of [ht_expand]: [n] iterations are left, starting at
    index [i]. *)
Fixpoint ht_expand_copy (n : nat) (i : Z) (old new_entries : list ht_entry)
  : outcome (list ht_entry) :=
  match n with
  | O => Ret new_entries
  | S n =>
      e <- slot old i ;;
      match key e with
      | Some _ =>
          new_entries <- store new_entries i e ;;
          ht_expand_copy n (i + 1) old new_entries
      | None => ht_expand_copy n (i + 1) old new_entries
      end
  end.

(** [ht_expand]: the [int] it returns and the map it leaves. *)
Definition ht_expand (m : Map) : outcome (Z * Map) :=
  let new_cap := wrap64 (capacity m * 2) in
  if new_cap <? capacity m then Ret (-1, m)
  else
    let new_entries := calloc new_cap in
    new_entries <- ht_expand_copy (Z.to_nat (ht_length m)) 0 (ht m) new_entries ;;
    Ret (0, MkMap new_entries new_cap (items m)).

(** The first half of [ht_set] after the key test: grow when the table is
    half full.  Returns what [ht_expand] returned ([0] when it was not
    called). *)
Definition ht_set_grow (m : Map) : outcome (Z * Map) :=
  if ht_length m >=? capacity m / 2 then ht_expand m else Ret (0, m).

(** [hash % m->capacity] *)
Definition home (m : Map) (hash : Z) : outcome Z :=
  if capacity m =? 0 then Fault DivByZero else Ret (hash mod capacity m).

(** [ht_set]: the pointer it returns and the map it leaves. *)
Definition ht_set (fuel : nat) (m : Map) (k : char_ptr) (v : void_ptr)
  : outcome (char_ptr * Map) :=
  match k with
  | None => Ret (None, m)
  | Some s =>
      g <- ht_set_grow m ;;
      if fst g <? 0 then Ret (None, m)
      else
        let m := snd g in
        let hash := ht__hash (c_bytes s) in
        index <- home m hash ;;
        ht_entry_set fuel m index k v
  end.

(** The loop of [ht_get]. *)
Fixpoint ht_get_probe (fuel : nat) (m : Map) (index : Z) (k : char_ptr)
  : outcome void_ptr :=
  match fuel with
  | O => OutOfFuel
  | S fuel =>
      e <- slot (ht m) index ;;
      if negb (value e =? 0) then
        c <- strcmp_ptr (key e) k ;;
        if c =? 0 then Ret (value e)
        else ht_get_probe fuel m (next_index m index) k
      else Ret 0
  end.

(** [ht_get] *)
Definition ht_get (fuel : nat) (m : Map) (k : char_ptr) : outcome void_ptr :=
  match k with
  | None => Fault NullDeref
  | Some s =>
      let hash := ht__hash (c_bytes s) in
      index <- home m hash ;;
      ht_get_probe fuel m index k
  end.

(** ** The hash as the specification words it *)

(** The key as a C string: the bytes before the first ['\0']. *)
Fixpoint c_str (s : string) : list Z :=
  match s with
  | EmptyString => []
  | String c rest => if uchar c =? 0 then [] else uchar c :: c_str rest
  end.

(** 64-bit FNV-1a: from the offset basis, xor each byte in, then multiply by
    the prime, modulo [2^64]. *)
Definition fnv1a_64 (bytes : list Z) : Z :=
  fold_left (fun acc b => (Z.lxor acc b * 0x100000001b3) mod 2 ^ 64)
            bytes 0xcbf29ce484222325.

(** ** States reachable through the public interface *)

Definition size_t_range (z : Z) : Prop := 0 <= z < 2 ^ 64.

(** Maps obtained from [ht_new_map cap] by calls of [ht_set] that return. *)
Inductive reachable (cap : Z) : Map -> Prop :=
| reach_new : reachable cap (ht_new_map cap)
| reach_set fuel m k v r m' :
    reachable cap m ->
    ht_set fuel m k v = Ret (r, m') ->
    reachable cap m'.

(** A script of [set] calls, run from left to right; a call that does not
    return stops the script. *)
Fixpoint run_sets (fuel : nat) (m : Map) (script : list (char_ptr * void_ptr))
  : outcome Map :=
  match script with
  | [] => Ret m
  | (k, v) :: script =>
      r <- ht_set fuel m k v ;;
      run_sets fuel (snd r) script
  end.

(** Occupied slots: the value field is not [NULL]. *)
Definition occupied (e : ht_entry) : bool := negb (value e =? 0).

Fixpoint count_occupied (l : list ht_entry) : nat :=
  match l with
  | [] => O
  | e :: l => if occupied e then S (count_occupied l) else count_occupied l
  end.

(** String literals used as keys, at distinct addresses. *)
Definition lit (addr : Z) (s : string) : char_ptr := Some (CString addr s).

Definition foo : char_ptr := lit 4096 "foo".
Definition bar : char_ptr := lit 4112 "bar".

(** What the copy loop of [ht_expand] leaves of an old slot: the slot when
    it has a key, a zeroed slot otherwise. *)
Definition kept (e : ht_entry) : ht_entry :=
  match key e with
  | Some _ => e
  | None => zero_entry
  end.

(** Every occupied slot has a key. *)
Definition keyed (l : list ht_entry) : Prop :=
  Forall (fun e => value e <> 0 -> key e <> None) l.

(** The invariant of the maps between two calls. *)
Record wf (m : Map) : Prop := Wf {
  wf_len : Z.of_nat (length (ht m)) = capacity m;
  wf_cap : capacity m < 2 ^ 64;
  wf_load : 0 <= items m <= capacity m / 2;
  wf_occ : Z.of_nat (count_occupied (ht m)) <= items m;
  wf_keyed : keyed (ht m)
}.

(** The invariant when the probe of [ht_set] starts: there is room for one
    more entry below the 50% bound. *)
Record ready (m : Map) : Prop := Ready {
  rd_len : Z.of_nat (length (ht m)) = capacity m;
  rd_cap : capacity m < 2 ^ 64;
  rd_load : 0 <= items m /\ items m + 1 <= capacity m / 2;
  rd_occ : Z.of_nat (count_occupied (ht m)) <= items m;
  rd_keyed : keyed (ht m)
}.

(** The table [ht_expand] builds: the first [n] old slots, each copied to
    its old position when it has a key, within [cap] zeroed slots. *)
Definition copied (n cap : nat) (old : list ht_entry) : list ht_entry :=
  map kept (take n old) ++ replicate (cap - n) zero_entry.

(** The four ways a call of [ht_set] on a well-formed map can go. *)
Inductive ht_set_case (m : Map) (k : char_ptr) (v : void_ptr) : Prop :=
| set_null_key :
    k = None ->
    (forall fuel, ht_set fuel m k v = Ret (None, m)) ->
    ht_set_case m k v
| set_grow_fails :
    k <> None -> capacity m / 2 <= items m -> 2 ^ 63 <= capacity m ->
    ht_set_grow m = Ret (-1, m) ->
    (forall fuel, ht_set fuel m k v = Ret (None, m)) ->
    ht_set_case m k v
| set_no_capacity :
    k <> None -> capacity m = 0 ->
    (forall fuel, ht_set fuel m k v = Fault DivByZero) ->
    ht_set_case m k v
| set_probes (s : c_string) (m1 : Map) (r : char_ptr) (m' : Map) (n : nat) :
    k = Some s -> 0 < capacity m ->
    ht_set_grow m = Ret (0, m1) -> ready m1 ->
    capacity m1 = capacity m \/ capacity m1 = capacity m * 2 ->
    items m1 = items m ->
    Z.of_nat n <= capacity m1 ->
    ht_entry_set n m1 (ht__hash (c_bytes s) mod capacity m1) k v = Ret (r, m') ->
    (forall fuel, ht_set fuel m k v
                  = ht_entry_set fuel m1 (ht__hash (c_bytes s) mod capacity m1) k v) ->
    ht_set_case m k v.

(** A map at the smallest capacity that can no longer double. *)
Definition huge : Map := MkMap (calloc (2 ^ 63)) (2 ^ 63) (2 ^ 62).

(** The two [return NULL] of [ht_set]: a null key, or a negative result of
    [ht_expand]. *)
Definition ht_set_fails (m : Map) (k : char_ptr) : Prop :=
  k = None \/ exists rc m1, ht_set_grow m = Ret (rc, m1) /\ rc < 0.

(** The same literal at another address. *)
Definition bar' : char_ptr := lit 8192 "bar".

(** One entry, then the update of it through another pointer. *)
Definition one_bar : Map :=
  MkMap [zero_entry; zero_entry; Entry bar 1; zero_entry] 4 1.
Definition one_bar_updated : Map :=
  MkMap [zero_entry; zero_entry; Entry bar 3; zero_entry] 4 1.

(** Slot [i] of [m] is occupied by a key equal to [s]. *)
Definition key_in_slot (m : Map) (s : string) (i : nat) : Prop :=
  exists e a, ht m !! i = Some e /\ value e <> 0
              /\ key e = Some a /\ strcmp (c_bytes a) s = 0.

(** ** Allocation that can fail *)

(** [sizeof(ht_entry)] and [sizeof(Map)] where pointers and [size_t] take 8
    bytes. *)
Definition sizeof_ht_entry : Z := 16.
Definition sizeof_Map : Z := 24.

(** The allocator of a run: [avail bytes] tells whether a request of
    [bytes] bytes is met.  In a run of [ht_new_map] followed by [ht_set]
    calls every request has a size of its own (the map, then tables of
    doubling capacity). *)
Definition allocator : Type := Z -> bool.

(** Whether [calloc(n, sizeof(ht_entry))] is met: the product has to fit
    [size_t], and the allocator has to meet it. *)
Definition calloc_met (avail : allocator) (n : Z) : bool :=
  (n * sizeof_ht_entry <? 2 ^ 64) && avail (n * sizeof_ht_entry).

(** The block [calloc(n, sizeof(ht_entry))] gives access to: [n] zeroed
    slots when the request is met, no slot when it returns [NULL] (every
    access through a null table is a fault of [slot]). *)
Definition calloc_with (avail : allocator) (n : Z) : list ht_entry :=
  if calloc_met avail n then calloc n else [].

(** [ht_new_map]: neither [malloc] nor [calloc] is tested.  When [malloc]
    returns [NULL] the store to [m->ht] goes through a null pointer; when
    [calloc] does, the map is returned with a null table. *)
Definition ht_new_map_with (avail : allocator) (capacity : Z) : outcome Map :=
  if avail sizeof_Map
  then Ret (MkMap (calloc_with avail capacity) capacity 0)
  else Fault NullDeref.

(** [ht_expand]: the result of [calloc] is not tested. *)
Definition ht_expand_with (avail : allocator) (m : Map) : outcome (Z * Map) :=
  let new_cap := wrap64 (capacity m * 2) in
  if new_cap <? capacity m then Ret (-1, m)
  else
    let new_entries := calloc_with avail new_cap in
    new_entries <- ht_expand_copy (Z.to_nat (ht_length m)) 0 (ht m) new_entries ;;
    Ret (0, MkMap new_entries new_cap (items m)).

Definition ht_set_grow_with (avail : allocator) (m : Map) : outcome (Z * Map) :=
  if ht_length m >=? capacity m / 2 then ht_expand_with avail m else Ret (0, m).

(** [ht_set] *)
Definition ht_set_with (avail : allocator) (fuel : nat) (m : Map)
    (k : char_ptr) (v : void_ptr) : outcome (char_ptr * Map) :=
  match k with
  | None => Ret (None, m)
  | Some s =>
      g <- ht_set_grow_with avail m ;;
      if fst g <? 0 then Ret (None, m)
      else
        let m := snd g in
        let hash := ht__hash (c_bytes s) in
        index <- home m hash ;;
        ht_entry_set fuel m index k v
  end.

Fixpoint run_sets_with (avail : allocator) (fuel : nat) (m : Map)
    (script : list (char_ptr * void_ptr)) : outcome Map :=
  match script with
  | [] => Ret m
  | (k, v) :: script =>
      r <- ht_set_with avail fuel m k v ;;
      run_sets_with avail fuel (snd r) script
  end.

(** Maps obtained under the allocator [avail] from a returning
    [ht_new_map cap] by calls of [ht_set] that return. *)
Inductive reachable_with (avail : allocator) (cap : Z) : Map -> Prop :=
| reach_with_new m :
    ht_new_map_with avail cap = Ret m ->
    reachable_with avail cap m
| reach_with_set fuel m k v r m' :
    reachable_with avail cap m ->
    ht_set_with avail fuel m k v = Ret (r, m') ->
    reachable_with avail cap m'.

(** An allocator that meets every request that fits [size_t], and one that
    meets requests below 128 bytes only. *)
Definition plenty : allocator := fun _ => true.
Definition scarce : allocator := fun bytes => bytes <? 128.

(** The path of a probe loop as a relation: a probe for the bytes [s] that
    looks at slot [index] first stops at slot [j].  It stops on a slot that
    is empty or holds an equal key, and steps over a slot that is occupied
    by another key. *)
Inductive probes_to (m : Map) (s : string) : Z -> Z -> Prop :=
| probes_stop index e :
    slot (ht m) index = Ret e ->
    value e = 0 \/ (exists a, key e = Some a /\ strcmp (c_bytes a) s = 0) ->
    probes_to m s index index
| probes_step index e a j :
    slot (ht m) index = Ret e ->
    value e <> 0 ->
    key e = Some a ->
    strcmp (c_bytes a) s <> 0 ->
    probes_to m s (next_index m index) j ->
    probes_to m s index j.

(** Every occupied slot is where a probe for its own key stops. *)
Definition probe_consistent (m : Map) : Prop :=
  forall (j : nat) (e : ht_entry),
    ht m !! j = Some e -> value e <> 0 ->
    exists a, key e = Some a
              /\ probes_to m (c_bytes a)
                           (ht__hash (c_bytes a) mod capacity m) (Z.of_nat j).

(** A map on which lookups are exact: well formed, of positive capacity,
    and probe consistent. *)
Record exact (m : Map) : Prop := Exact {
  ex_wf : wf m;
  ex_pos : 0 < capacity m;
  ex_probe : probe_consistent m
}.

(** The value a script of [set] calls binds to the bytes [s]: the value of
    the last call whose key compares equal, [acc] when there is none.  Calls
    with a null key bind nothing. *)
Fixpoint last_set (script : list (char_ptr * void_ptr)) (acc : Z) (s : string)
  : Z :=
  match script with
  | [] => acc
  | (Some a, v) :: script =>
      last_set script (if strcmp (c_bytes a) s =? 0 then v else acc) s
  | (None, _) :: script => last_set script acc s
  end.

(** The write of [ht_entry_set] at slot [j]. *)
Definition written (m : Map) (j : Z) (e : ht_entry) (n : Z) : Map :=
  MkMap (<[Z.to_nat j := e]> (ht m)) (capacity m) n.

(** One call of [free]. *)
Inductive freed : Type :=
| FreeValue (v : void_ptr)   (* [free] of [m->ht[i].value] *)
| FreeKey (k : char_ptr)     (* [free] of [m->ht[i].key] *)
| FreeTable                  (* [free] of [m->ht] *)
| FreeMap.                   (* [free] of [m] *)

(** The loop of [ht_destroy]: [n] iterations are left, starting at index
    [i]; the calls of [free] in order. *)
Fixpoint ht_destroy_loop (n : nat) (i : Z) (l : list ht_entry)
  : outcome (list freed) :=
  match n with
  | O => Ret []
  | S n =>
      e <- slot l i ;;
      calls <- ht_destroy_loop n (i + 1) l ;;
      Ret (FreeValue (value e) :: FreeKey (key e) :: calls)
  end.

(** [ht_destroy], as the calls of [free] it makes. *)
Definition ht_destroy (m : Map) : outcome (list freed) :=
  calls <- ht_destroy_loop (Z.to_nat (ht_length m)) 0 (ht m) ;;
  Ret (calls ++ [FreeTable; FreeMap]).

(** The two calls of [free] of one iteration of [ht_destroy]. *)
Definition frees_of (e : ht_entry) : list freed :=
  [FreeValue (value e); FreeKey (key e)].

(** A key of the test suite that is never set. *)
Definition asdf : char_ptr := lit 4128 "asdf".

(** Every occupied slot of the table holds a value that [P] relates to the
    bytes of its key. *)
Definition holds_only (P : list Z -> Z -> Prop) (l : list ht_entry) : Prop :=
  Forall (fun e => value e <> 0 ->
                   exists a, key e = Some a /\ P (c_str (c_bytes a)) (value e))
         l.

(** Some call of the script sets the value [v] under a key with the bytes
    [bytes]. *)
Definition set_by (script : list (char_ptr * void_ptr))
    (bytes : list Z) (v : Z) : Prop :=
  exists a, In (Some a, v) script /\ c_str (c_bytes a) = bytes.

(** No key occupies two slots. *)
Definition no_duplicate_keys (m : Map) : Prop :=
  forall s i j, key_in_slot m s i -> key_in_slot m s j -> i = j.

(** ** The hash *)

Lemma ht__hash_from_fold (key : string) (hash : Z) :
  ht__hash_from key hash =
  fold_left (fun acc b => (Z.lxor acc b * 0x100000001b3) mod 2 ^ 64)
            (c_str key) hash.
Proof.
  revert hash. induction key as [|c rest IH]; intros hash; simpl.
  - reflexivity.
  - destruct (uchar c =? 0); simpl; [reflexivity|].
    rewrite IH. reflexivity.
Qed.

Lemma c_str_bytes (key : string) :
  Forall (fun b => 1 <= b <= 255) (c_str key).
Proof.
  induction key as [|c rest IH]; simpl; [constructor|].
  destruct (Z.eqb_spec (uchar c) 0) as [|Hne]; [constructor|].
  constructor; [|exact IH].
  unfold uchar in *.
  pose proof (N_ascii_bounded c) as Hb. lia.
Qed.

Lemma ht__hash_from_range (key : string) (hash : Z) :
  0 <= hash < 2 ^ 64 -> 0 <= ht__hash_from key hash < 2 ^ 64.
Proof.
  revert hash. induction key as [|c rest IH]; intros hash Hh; simpl.
  - exact Hh.
  - destruct (uchar c =? 0); [exact Hh|].
    apply IH. unfold wrap64. apply Z.mod_pos_bound. lia.
Qed.

Lemma ht__hash_range (key : string) : 0 <= ht__hash key < 2 ^ 64.
Proof. apply ht__hash_from_range. unfold FNV_OFFSET_BASIS. lia. Qed.

(** C8: [ht__hash] is 64-bit FNV-1a over the bytes of the key before its
    terminator: from the offset basis 0xcbf29ce484222325
    (14695981039346656037), each byte in order is xored in and the result
    multiplied by the prime 0x100000001b3 (1099511628211) modulo 2^64.  The
    digest is a function of the bytes alone (so equal byte strings hash
    alike on every call) and fits 64 bits. *)
Theorem ht__hash_is_fnv1a_64 (key : string) :
  ht__hash key = fnv1a_64 (c_str key)
  /\ 0 <= ht__hash key < 2 ^ 64
  /\ (forall key' : string, c_str key' = c_str key -> ht__hash key' = ht__hash key).
Proof.
  assert (Hfold : forall s, ht__hash s = fnv1a_64 (c_str s)).
  { intros s. unfold ht__hash, fnv1a_64. rewrite ht__hash_from_fold. reflexivity. }
  split; [apply Hfold|]. split; [apply ht__hash_range|].
  intros key' Heq. rewrite !Hfold, Heq. reflexivity.
Qed.

(** ** Array accesses *)

Lemma slot_Ret (l : list ht_entry) (i : Z) (e : ht_entry) :
  slot l i = Ret e <-> 0 <= i /\ l !! Z.to_nat i = Some e.
Proof.
  unfold slot. destruct (Z.ltb_spec i 0).
  - split; [discriminate|lia].
  - destruct (l !! Z.to_nat i) as [e'|]; split.
    + intros [= ->]. auto.
    + intros [_ [= ->]]. reflexivity.
    + discriminate.
    + intros [_ [=]].
Qed.

Lemma slot_of_nat (l : list ht_entry) (i : nat) (e : ht_entry) :
  l !! i = Some e -> slot l (Z.of_nat i) = Ret e.
Proof. intros H. apply slot_Ret. rewrite Nat2Z.id. split; [lia|exact H]. Qed.

Lemma store_of_nat (l : list ht_entry) (i : nat) (e : ht_entry) :
  (i < length l)%nat -> store l (Z.of_nat i) e = Ret (<[i := e]> l).
Proof.
  intros H. unfold store.
  destruct (lookup_lt_is_Some_2 l i H) as [e' He'].
  rewrite (slot_of_nat _ _ _ He'). simpl. rewrite Nat2Z.id. reflexivity.
Qed.

Lemma store_Ret (l l' : list ht_entry) (i : Z) (e : ht_entry) :
  store l i e = Ret l' ->
  0 <= i /\ (Z.to_nat i < length l)%nat /\ l' = <[Z.to_nat i := e]> l.
Proof.
  unfold store. destruct (slot l i) as [e'| |] eqn:Hs; simpl; try discriminate.
  intros [= <-]. apply slot_Ret in Hs as [Hi Hl].
  split; [exact Hi|]. split; [|reflexivity].
  eapply lookup_lt_Some, Hl.
Qed.

(** ** Counting occupied slots *)

Lemma count_occupied_app (l1 l2 : list ht_entry) :
  count_occupied (l1 ++ l2) = (count_occupied l1 + count_occupied l2)%nat.
Proof.
  induction l1 as [|e l1 IH]; simpl; [reflexivity|].
  rewrite IH. destruct (occupied e); reflexivity.
Qed.

Lemma count_occupied_zeroes (n : nat) :
  count_occupied (replicate n zero_entry) = O.
Proof. induction n as [|n IH]; simpl; [reflexivity|exact IH]. Qed.

Lemma count_occupied_length (l : list ht_entry) :
  (count_occupied l <= length l)%nat.
Proof.
  induction l as [|e l IH]; simpl; [lia|].
  destruct (occupied e); lia.
Qed.

Lemma count_occupied_kept (l : list ht_entry) :
  (count_occupied (map kept l) <= count_occupied l)%nat.
Proof.
  induction l as [|e l IH]; simpl; [lia|].
  unfold kept at 1. destruct (key e); simpl.
  - destruct (occupied e); lia.
  - destruct (occupied e); lia.
Qed.

Lemma count_occupied_take (n : nat) (l : list ht_entry) :
  (count_occupied (take n l) <= count_occupied l)%nat.
Proof.
  rewrite <- (take_drop n l) at 2. rewrite count_occupied_app. lia.
Qed.

(** Writing one slot adds at most one occupied slot, and none when the slot
    was occupied already. *)
Lemma count_occupied_insert (l : list ht_entry) (i : nat) (e old : ht_entry) :
  l !! i = Some old ->
  (count_occupied (<[i := e]> l) + (if occupied old then 1 else 0)
   = count_occupied l + (if occupied e then 1 else 0))%nat.
Proof.
  revert i. induction l as [|x l IH]; intros [|i] Hl; simpl in *; try discriminate.
  - injection Hl as ->. destruct (occupied e), (occupied old); lia.
  - specialize (IH i Hl). destruct (occupied x); lia.
Qed.

(** A table with fewer occupied slots than slots has an empty one. *)
Lemma empty_slot_exists (l : list ht_entry) :
  (count_occupied l < length l)%nat ->
  exists (j : nat) (e : ht_entry), l !! j = Some e /\ value e = 0.
Proof.
  induction l as [|x l IH]; simpl; [lia|].
  destruct (occupied x) eqn:Hx; intros Hlt.
  - destruct IH as (j & e & Hj & He); [lia|].
    exists (S j), e. auto.
  - exists O, x. split; [reflexivity|].
    unfold occupied in Hx. apply negb_false_iff in Hx. lia.
Qed.

Lemma keyed_insert (l : list ht_entry) (i : nat) (e : ht_entry) :
  keyed l -> (value e <> 0 -> key e <> None) -> keyed (<[i := e]> l).
Proof. intros Hl He. apply Forall_insert; assumption. Qed.

Lemma keyed_kept (l : list ht_entry) : keyed l -> keyed (map kept l).
Proof.
  unfold keyed. rewrite Forall_map. intros Hl.
  eapply Forall_impl; [exact Hl|]. simpl.
  intros e He. unfold kept. destruct (key e) eqn:Hk; simpl.
  - rewrite Hk. intros _. discriminate.
  - intros Hv. contradiction.
Qed.

Lemma keyed_zeroes (n : nat) : keyed (replicate n zero_entry).
Proof. apply Forall_replicate. simpl. intros H. contradiction. Qed.

(** ** Growing *)

Lemma copied_step (i cap : nat) (old : list ht_entry) (e : ht_entry) :
  old !! i = Some e -> (i < cap)%nat ->
  copied (S i) cap old = <[i := kept e]> (copied i cap old).
Proof.
  intros He Hlt. unfold copied.
  assert (Hlen : length (map kept (take i old)) = i).
  { rewrite length_map, length_take. apply lookup_lt_Some in He. lia. }
  rewrite (take_S_r _ _ _ He), map_app. simpl.
  replace (cap - i)%nat with (S (cap - S i)) by lia. simpl.
  rewrite insert_app_r_alt by lia.
  rewrite Hlen, Nat.sub_diag. simpl.
  rewrite <- app_assoc. reflexivity.
Qed.

Lemma copied_unchanged (i cap : nat) (old : list ht_entry) (e : ht_entry) :
  old !! i = Some e -> (i < cap)%nat -> key e = None ->
  copied (S i) cap old = copied i cap old.
Proof.
  intros He Hlt Hk. rewrite (copied_step _ _ _ _ He Hlt).
  unfold kept. rewrite Hk. apply list_insert_id.
  unfold copied.
  assert (Hlen : length (map kept (take i old)) = i).
  { rewrite length_map, length_take. apply lookup_lt_Some in He. lia. }
  rewrite lookup_app_r by lia. rewrite Hlen, Nat.sub_diag.
  replace (cap - i)%nat with (S (cap - S i)) by lia. reflexivity.
Qed.

Lemma length_copied (n cap : nat) (old : list ht_entry) :
  (n <= length old)%nat -> (n <= cap)%nat -> length (copied n cap old) = cap.
Proof.
  intros H1 H2. unfold copied.
  rewrite length_app, length_map, length_take, length_replicate. lia.
Qed.

(** The copy loop, when it stays inside both arrays. *)
Lemma ht_expand_copy_spec (n i cap : nat) (old : list ht_entry) :
  (i + n <= length old)%nat -> (i + n <= cap)%nat ->
  ht_expand_copy n (Z.of_nat i) old (copied i cap old)
  = Ret (copied (i + n) cap old).
Proof.
  revert i. induction n as [|n IH]; intros i Hold Hcap; simpl.
  - rewrite Nat.add_0_r. reflexivity.
  - destruct (lookup_lt_is_Some_2 old i) as [e He]; [lia|].
    rewrite (slot_of_nat _ _ _ He). simpl.
    replace (Z.of_nat i + 1) with (Z.of_nat (S i)) by lia.
    replace (i + S n)%nat with (S i + n)%nat by lia.
    destruct (key e) eqn:Hk.
    + rewrite store_of_nat by (rewrite length_copied; lia). simpl.
      replace e with (kept e) at 1 by (unfold kept; rewrite Hk; reflexivity).
      rewrite <- (copied_step _ _ _ _ He) by lia.
      apply IH; lia.
    + rewrite <- (copied_unchanged i cap old e He) by (lia || assumption).
      apply IH; lia.
Qed.

Lemma copied_0 (cap : Z) (old : list ht_entry) :
  calloc cap = copied 0 (Z.to_nat cap) old.
Proof. unfold calloc, copied. rewrite take_0, Nat.sub_0_r. reflexivity. Qed.

(** [ht_expand] on a well-formed map: it fails, leaving the map as it is,
    exactly when doubling wraps around; otherwise the capacity doubles and
    the table is [copied]. *)
Lemma ht_expand_wf (m : Map) :
  wf m ->
  (2 ^ 63 <= capacity m /\ ht_expand m = Ret (-1, m))
  \/ (capacity m < 2 ^ 63 /\
      ht_expand m =
      Ret (0, MkMap (copied (Z.to_nat (items m)) (Z.to_nat (capacity m * 2)) (ht m))
                    (capacity m * 2) (items m))).
Proof.
  intros [Hlen Hcap Hload Hocc Hkeyed]. unfold ht_expand, wrap64.
  assert (0 <= capacity m) by lia.
  destruct (Z.lt_ge_cases (capacity m) (2 ^ 63)) as [Hsmall|Hbig].
  - right. split; [exact Hsmall|].
    rewrite Z.mod_small by lia.
    destruct (Z.ltb_spec (capacity m * 2) (capacity m)); [lia|].
    rewrite (copied_0 _ (ht m)).
    change (Z.of_nat 0) with 0.
    pose proof (Z.div_le_upper_bound (capacity m) 2 (capacity m)) as Hd.
    assert (capacity m / 2 <= capacity m) by (apply Z.div_le_upper_bound; lia).
    change 0 with (Z.of_nat 0).
    rewrite ht_expand_copy_spec; unfold ht_length; [reflexivity|lia|lia].
  - left. split; [exact Hbig|].
    replace (capacity m * 2 mod 2 ^ 64) with (capacity m * 2 - 2 ^ 64).
    + destruct (Z.ltb_spec (capacity m * 2 - 2 ^ 64) (capacity m)); [reflexivity|lia].
    + apply Z.mod_unique with (q := 1); lia.
Qed.

(** [ht_expand] keeps the invariant, with room for the insert that follows. *)
Lemma copied_ready (m : Map) :
  wf m -> 0 < capacity m -> capacity m < 2 ^ 63 ->
  ready (MkMap (copied (Z.to_nat (items m)) (Z.to_nat (capacity m * 2)) (ht m))
               (capacity m * 2) (items m)).
Proof.
  intros [Hlen Hcap Hload Hocc Hkeyed] Hpos Hsmall.
  assert (Hhalf : capacity m / 2 < capacity m) by (apply Z.div_lt; lia).
  constructor; simpl.
  - rewrite length_copied; lia.
  - lia.
  - rewrite Z.div_mul by lia. lia.
  - unfold copied. rewrite count_occupied_app, count_occupied_zeroes.
    pose proof (count_occupied_kept (take (Z.to_nat (items m)) (ht m))).
    pose proof (count_occupied_take (Z.to_nat (items m)) (ht m)).
    lia.
  - unfold copied, keyed. apply Forall_app. split.
    + apply keyed_kept. unfold keyed. apply Forall_take. exact Hkeyed.
    + apply keyed_zeroes.
Qed.

(** The growth step of [ht_set] on a well-formed map. *)
Lemma ht_set_grow_wf (m : Map) :
  wf m ->
  (capacity m / 2 <= items m /\ 2 ^ 63 <= capacity m
   /\ ht_set_grow m = Ret (-1, m))
  \/ (exists m1, ht_set_grow m = Ret (0, m1)
      /\ (capacity m1 = capacity m \/ capacity m1 = capacity m * 2)
      /\ items m1 = items m
      /\ (0 < capacity m -> ready m1)).
Proof.
  intros Hwf. unfold ht_set_grow, ht_length.
  destruct (Z.geb_spec (items m) (capacity m / 2)) as [Hfull|Hroom].
  - destruct (ht_expand_wf m Hwf) as [[Hbig ->]|[Hsmall ->]].
    + left. auto.
    + right. eexists. split; [reflexivity|]. simpl.
      split; [right; reflexivity|]. split; [reflexivity|].
      intros Hpos. apply copied_ready; assumption.
  - right. exists m. split; [reflexivity|]. split; [left; reflexivity|].
    split; [reflexivity|]. intros _.
    destruct Hwf as [Hlen Hcap Hload Hocc Hkeyed].
    constructor; try assumption. lia.
Qed.

(** ** Probing *)

Lemma next_index_mod (m : Map) (index : Z) :
  0 <= index < capacity m -> capacity m < 2 ^ 64 ->
  next_index m index = (index + 1) mod capacity m.
Proof.
  intros Hi Hc. unfold next_index, wrap64.
  rewrite (Z.mod_small (index + 1)) by lia.
  destruct (Z.geb_spec (index + 1) (capacity m)).
  - replace (index + 1) with (capacity m) by lia.
    rewrite Z.mod_same by lia. reflexivity.
  - rewrite Z.mod_small by lia. reflexivity.
Qed.

(** What a returning [ht_entry_set] did: it wrote one slot [j], which was
    either empty (the key argument is stored and returned, [items] grows)
    or held an equal key (the stored pointer is kept and returned, [items]
    stays). *)
Lemma ht_entry_set_Ret (fuel : nat) (m : Map) (index : Z)
    (k : char_ptr) (v : void_ptr) (r : char_ptr) (m' : Map) :
  ht_entry_set fuel m index k v = Ret (r, m') ->
  exists (j : nat) (e : ht_entry),
    ht m !! j = Some e
    /\ ht m' = <[j := Entry r v]> (ht m)
    /\ capacity m' = capacity m
    /\ ((value e = 0 /\ r = k /\ items m' = wrap64 (items m + 1))
        \/ (value e <> 0 /\ r = key e /\ items m' = items m
            /\ exists a b, key e = Some a /\ k = Some b
                           /\ strcmp (c_bytes a) (c_bytes b) = 0)).
Proof.
  revert index. induction fuel as [|fuel IH]; intros index; simpl; [discriminate|].
  destruct (slot (ht m) index) as [e| |] eqn:Hslot; simpl; try discriminate.
  apply slot_Ret in Hslot as [Hi He].
  destruct (Z.eqb_spec (value e) 0) as [Hv|Hv]; simpl.
  - destruct (store (ht m) index (Entry k v)) as [l| |] eqn:Hst; simpl; try discriminate.
    apply store_Ret in Hst as (_ & _ & ->).
    intros [= <- <-]. exists (Z.to_nat index), e. simpl. auto 10.
  - destruct (key e) as [a|] eqn:Hka, k as [b|] eqn:Hkb; simpl; try discriminate.
    destruct (Z.eqb_spec (strcmp (c_bytes a) (c_bytes b)) 0) as [Hc|Hc].
    + destruct (store (ht m) index (Entry (Some a) v)) as [l| |] eqn:Hst;
        simpl; try discriminate.
      apply store_Ret in Hst as (_ & _ & ->).
      intros [= <- <-]. exists (Z.to_nat index), e. simpl.
      split; [exact He|]. split; [reflexivity|]. split; [reflexivity|].
      right. split; [exact Hv|]. split; [congruence|]. split; [reflexivity|].
      exists a, b. auto.
    + apply IH.
Qed.

(** A returning [ht_entry_set] with a non-null key takes [ready] maps to
    well-formed ones and returns a non-null pointer. *)
Lemma ht_entry_set_wf (fuel : nat) (m : Map) (index : Z)
    (s : c_string) (v : void_ptr) (r : char_ptr) (m' : Map) :
  ready m ->
  ht_entry_set fuel m index (Some s) v = Ret (r, m') ->
  wf m' /\ capacity m' = capacity m /\ r <> None.
Proof.
  intros [Hlen Hcap Hload Hocc Hkeyed] Hset.
  apply ht_entry_set_Ret in Hset as (j & e & He & Hht & Hc & Hcase).
  pose proof (count_occupied_insert (ht m) j (Entry r v) e He) as Hcount.
  assert (Hr : r <> None).
  { destruct Hcase as [(_ & -> & _)|(_ & -> & _ & a & b & -> & _)]; discriminate. }
  split; [|split; [exact Hc|exact Hr]].
  constructor; rewrite ?Hht, ?Hc.
  - rewrite length_insert. exact Hlen.
  - exact Hcap.
  - destruct Hcase as [(_ & _ & ->)|(_ & _ & -> & _)].
    + unfold wrap64. rewrite Z.mod_small; [lia|].
      assert (capacity m / 2 <= capacity m) by (apply Z.div_le_upper_bound; lia).
      lia.
    + lia.
  - destruct Hcase as [(Hv & _ & ->)|(Hv & _ & -> & _)].
    + assert (occupied e = false) as Hoe
        by (unfold occupied; rewrite Hv; reflexivity).
      rewrite Hoe in Hcount.
      unfold wrap64. rewrite Z.mod_small.
      * destruct (occupied (Entry r v)); lia.
      * assert (capacity m / 2 <= capacity m) by (apply Z.div_le_upper_bound; lia).
        lia.
    + assert (occupied e = true) as Hoe.
      { unfold occupied. apply negb_true_iff. apply Z.eqb_neq. exact Hv. }
      rewrite Hoe in Hcount.
      destruct (occupied (Entry r v)); lia.
  - apply keyed_insert; [exact Hkeyed|]. simpl. intros _. exact Hr.
Qed.

(** Termination of the two probe loops on a table that has an empty slot. *)
Section ProbeTermination.
Variable m : Map.
Hypothesis Hlen : Z.of_nat (length (ht m)) = capacity m.
Hypothesis Hcap : capacity m < 2 ^ 64.
Hypothesis Hkeyed : keyed (ht m).
Variable j : nat.
Variable e0 : ht_entry.
Hypothesis Hj : ht m !! j = Some e0.
Hypothesis He0 : value e0 = 0.

(** The slot at a valid index, and the key of an occupied one. *)
Lemma probe_slot (index : Z) :
  0 <= index < capacity m ->
  exists e, slot (ht m) index = Ret e
            /\ ht m !! Z.to_nat index = Some e
            /\ (value e <> 0 -> exists a, key e = Some a).
Proof using Hlen Hkeyed.
  intros Hi.
  destruct (lookup_lt_is_Some_2 (ht m) (Z.to_nat index)) as [e He]; [lia|].
  exists e. split; [apply slot_Ret; split; [lia|exact He]|].
  split; [exact He|]. intros Hv.
  unfold keyed in Hkeyed. rewrite Forall_lookup in Hkeyed.
  specialize (Hkeyed _ _ He Hv).
  destruct (key e) as [a|]; [eauto|contradiction].
Qed.

Lemma probe_store (index : Z) (e : ht_entry) :
  0 <= index < capacity m ->
  store (ht m) index e = Ret (<[Z.to_nat index := e]> (ht m)).
Proof using Hlen Hkeyed.
  intros Hi. unfold store.
  destruct (probe_slot index Hi) as (e' & -> & _). reflexivity.
Qed.

(** Stepping from [index] when the empty slot [j] is [S d] steps ahead. *)
Lemma probe_next (index : Z) (d : nat) :
  0 <= index < capacity m ->
  Z.of_nat j = (index + Z.of_nat (S d)) mod capacity m ->
  0 <= next_index m index < capacity m
  /\ Z.of_nat j = (next_index m index + Z.of_nat d) mod capacity m.
Proof using Hcap.
  intros Hi Hd. rewrite next_index_mod by lia. split.
  - apply Z.mod_pos_bound. lia.
  - rewrite Z.add_mod_idemp_l by lia. rewrite Hd. f_equal. lia.
Qed.

(** At distance [0] the probe is on the empty slot. *)
Lemma probe_here (index : Z) (e : ht_entry) :
  0 <= index < capacity m ->
  Z.of_nat j = (index + Z.of_nat 0) mod capacity m ->
  ht m !! Z.to_nat index = Some e -> value e = 0.
Proof using Hj He0.
  intros Hi Hd He. rewrite Z.add_0_r, Z.mod_small in Hd by lia.
  rewrite <- Hd, Nat2Z.id in He. congruence.
Qed.

Lemma ht_entry_set_terminates (s : c_string) (v : void_ptr) (d : nat) :
  forall (index : Z) (fuel : nat),
    0 <= index < capacity m ->
    Z.of_nat j = (index + Z.of_nat d) mod capacity m ->
    (d < fuel)%nat ->
    exists res, ht_entry_set fuel m index (Some s) v = Ret res.
Proof using All.
  induction d as [|d IH]; intros index [|fuel] Hi Hd Hfuel; try lia; simpl;
    destruct (probe_slot index Hi) as (e & -> & He & Hkey); simpl;
    destruct (Z.eqb_spec (value e) 0) as [Hv|Hv]; simpl;
    try (rewrite probe_store by exact Hi; simpl; eauto; fail).
  - contradiction Hv. eapply probe_here; eassumption.
  - destruct (Hkey Hv) as [a ->]. simpl.
    destruct (strcmp (c_bytes a) (c_bytes s) =? 0).
    + rewrite probe_store by exact Hi. simpl. eauto.
    + destruct (probe_next index d Hi Hd) as [Hi' Hd'].
      apply IH; [exact Hi'|exact Hd'|lia].
Qed.

Lemma ht_get_probe_terminates (s : c_string) (d : nat) :
  forall (index : Z) (fuel : nat),
    0 <= index < capacity m ->
    Z.of_nat j = (index + Z.of_nat d) mod capacity m ->
    (d < fuel)%nat ->
    exists res, ht_get_probe fuel m index (Some s) = Ret res.
Proof using All.
  induction d as [|d IH]; intros index [|fuel] Hi Hd Hfuel; try lia; simpl;
    destruct (probe_slot index Hi) as (e & -> & He & Hkey); simpl;
    destruct (Z.eqb_spec (value e) 0) as [Hv|Hv]; simpl; eauto.
  - contradiction Hv. eapply probe_here; eassumption.
  - destruct (Hkey Hv) as [a ->]. simpl.
    destruct (strcmp (c_bytes a) (c_bytes s) =? 0); [eauto|].
    destruct (probe_next index d Hi Hd) as [Hi' Hd'].
    apply IH; [exact Hi'|exact Hd'|lia].
Qed.

(** From any start the empty slot is less than [capacity] steps ahead. *)
Lemma probe_distance (index : Z) :
  0 <= index < capacity m ->
  exists d : nat,
    Z.of_nat j = (index + Z.of_nat d) mod capacity m
    /\ (d < Z.to_nat (capacity m))%nat.
Proof using Hlen Hj.
  intros Hi.
  assert (Hjlt : Z.of_nat j < capacity m).
  { apply lookup_lt_Some in Hj. lia. }
  pose proof (Z.mod_pos_bound (Z.of_nat j - index) (capacity m)) as Hb.
  exists (Z.to_nat ((Z.of_nat j - index) mod capacity m)). split; [|lia].
  rewrite Z2Nat.id by lia.
  rewrite Z.add_mod_idemp_r by lia.
  replace (index + (Z.of_nat j - index)) with (Z.of_nat j) by lia.
  rewrite Z.mod_small; lia.
Qed.
End ProbeTermination.

(** ** Fuel *)

(** Once a probe loop has stopped, more fuel changes nothing. *)
Lemma ht_entry_set_fuel (n n' : nat) (m : Map) (index : Z)
    (k : char_ptr) (v : void_ptr) :
  (n <= n')%nat ->
  ht_entry_set n m index k v <> OutOfFuel ->
  ht_entry_set n' m index k v = ht_entry_set n m index k v.
Proof.
  revert n' index. induction n as [|n IH]; intros [|n'] index Hle; simpl;
    try lia; try congruence.
  destruct (slot (ht m) index) as [e| |]; simpl; try reflexivity.
  destruct (negb (value e =? 0)); [|reflexivity].
  destruct (strcmp_ptr (key e) k) as [c| |]; simpl; try reflexivity.
  destruct (c =? 0); [reflexivity|].
  apply IH. lia.
Qed.

Lemma ht_get_probe_fuel (n n' : nat) (m : Map) (index : Z) (k : char_ptr) :
  (n <= n')%nat ->
  ht_get_probe n m index k <> OutOfFuel ->
  ht_get_probe n' m index k = ht_get_probe n m index k.
Proof.
  revert n' index. induction n as [|n IH]; intros [|n'] index Hle; simpl;
    try lia; try congruence.
  destruct (slot (ht m) index) as [e| |]; simpl; try reflexivity.
  destruct (negb (value e =? 0)); [|reflexivity].
  destruct (strcmp_ptr (key e) k) as [c| |]; simpl; try reflexivity.
  destruct (c =? 0); [reflexivity|].
  apply IH. lia.
Qed.

Lemma ht_set_fuel (n n' : nat) (m : Map) (k : char_ptr) (v : void_ptr) :
  (n <= n')%nat ->
  ht_set n m k v <> OutOfFuel ->
  ht_set n' m k v = ht_set n m k v.
Proof.
  intros Hle. unfold ht_set. destruct k as [s|]; [|reflexivity].
  destruct (ht_set_grow m) as [g| |]; simpl; try reflexivity.
  destruct (fst g <? 0); [reflexivity|].
  destruct (home (snd g) (ht__hash (c_bytes s))) as [index| |]; simpl;
    try reflexivity.
  apply ht_entry_set_fuel. exact Hle.
Qed.

Lemma ht_get_fuel (n n' : nat) (m : Map) (k : char_ptr) :
  (n <= n')%nat ->
  ht_get n m k <> OutOfFuel ->
  ht_get n' m k = ht_get n m k.
Proof.
  intros Hle. unfold ht_get. destruct k as [s|]; [|reflexivity].
  destruct (home m (ht__hash (c_bytes s))) as [index| |]; simpl;
    try reflexivity.
  apply ht_get_probe_fuel. exact Hle.
Qed.

(** ** One call of [ht_set] on a well-formed map *)

Lemma home_Ret (m : Map) (hash : Z) :
  0 < capacity m ->
  home m hash = Ret (hash mod capacity m)
  /\ 0 <= hash mod capacity m < capacity m.
Proof.
  intros Hpos. unfold home.
  destruct (Z.eqb_spec (capacity m) 0); [lia|].
  split; [reflexivity|]. apply Z.mod_pos_bound. exact Hpos.
Qed.

Lemma ready_empty_slot (m : Map) :
  ready m -> exists (j : nat) (e : ht_entry), ht m !! j = Some e /\ value e = 0.
Proof.
  intros [Hlen Hcap Hload Hocc Hkeyed]. apply empty_slot_exists.
  assert (capacity m / 2 <= capacity m) by (apply Z.div_le_upper_bound; lia).
  lia.
Qed.

Lemma wf_empty_slot (m : Map) :
  wf m -> 0 < capacity m ->
  exists (j : nat) (e : ht_entry), ht m !! j = Some e /\ value e = 0.
Proof.
  intros [Hlen Hcap Hload Hocc Hkeyed] Hpos. apply empty_slot_exists.
  assert (capacity m / 2 < capacity m) by (apply Z.div_lt; lia).
  lia.
Qed.

Lemma ht_set_cases (m : Map) (k : char_ptr) (v : void_ptr) :
  wf m -> ht_set_case m k v.
Proof.
  intros Hwf. destruct k as [s|]; [|apply set_null_key; reflexivity].
  destruct (ht_set_grow_wf m Hwf)
    as [(Hfull & Hbig & Hg)|(m1 & Hg & Hc1 & Hi1 & Hready)].
  - apply set_grow_fails; try assumption; [discriminate|].
    intros fuel. unfold ht_set. rewrite Hg. reflexivity.
  - assert (Hnn : 0 <= capacity m) by (destruct Hwf; lia).
    destruct (Z.eq_dec (capacity m) 0) as [Hz|Hnz].
    + apply set_no_capacity; [discriminate|exact Hz|].
      intros fuel. unfold ht_set. rewrite Hg. simpl.
      unfold home. replace (capacity m1) with 0 by lia. reflexivity.
    + assert (Hpos : 0 < capacity m) by lia.
      specialize (Hready Hpos).
      assert (Hpos1 : 0 < capacity m1) by lia.
      destruct (home_Ret m1 (ht__hash (c_bytes s)) Hpos1) as [Hhome Hidx].
      destruct (ready_empty_slot m1 Hready) as (j & e0 & Hj & He0).
      destruct Hready as [Hlen Hcap Hload Hocc Hkeyed].
      destruct (probe_distance m1 Hlen j e0 Hj _ Hidx) as (d & Hd & Hdlt).
      destruct (ht_entry_set_terminates m1 Hlen Hcap Hkeyed j e0 Hj He0 s v d
                  _ (S d) Hidx Hd) as [[r m'] Hres]; [lia|].
      apply (set_probes m (Some s) v s m1 r m' (S d));
        try assumption; try reflexivity.
      * constructor; assumption.
      * lia.
      * intros fuel. unfold ht_set. rewrite Hg. simpl. rewrite Hhome. reflexivity.
Qed.

(** ** Reachable maps *)

Lemma ht_new_map_wf (cap : Z) : size_t_range cap -> wf (ht_new_map cap).
Proof.
  intros [Hlo Hhi]. unfold ht_new_map, calloc. constructor; simpl.
  - rewrite length_replicate. lia.
  - exact Hhi.
  - split; [lia|]. apply Z.div_pos; lia.
  - rewrite count_occupied_zeroes. lia.
  - apply keyed_zeroes.
Qed.

(** A returning [ht_set] keeps the invariant; the capacity stays or doubles. *)
Lemma ht_set_wf (fuel : nat) (m : Map) (k : char_ptr) (v : void_ptr)
    (r : char_ptr) (m' : Map) :
  wf m ->
  ht_set fuel m k v = Ret (r, m') ->
  wf m' /\ (capacity m' = capacity m \/ capacity m' = capacity m * 2).
Proof.
  intros Hwf Hset.
  destruct (ht_set_cases m k v Hwf)
    as [_ Hall|_ _ _ _ Hall|_ _ Hall|s m1 r0 m0 n -> _ _ Hready Hc _ _ _ Hall];
    rewrite Hall in Hset.
  - injection Hset as <- <-. auto.
  - injection Hset as <- <-. auto.
  - discriminate.
  - destruct (ht_entry_set_wf _ _ _ _ _ _ _ Hready Hset) as (Hwf' & Hc' & _).
    split; [exact Hwf'|]. rewrite Hc'. exact Hc.
Qed.

Lemma reachable_wf (cap : Z) (m : Map) :
  size_t_range cap -> reachable cap m ->
  wf m /\ exists n : nat, capacity m = cap * 2 ^ Z.of_nat n.
Proof.
  intros Hcap Hreach. induction Hreach as [|fuel m k v r m' _ [IHwf [n IHn]] Hset].
  - split; [apply ht_new_map_wf; exact Hcap|]. exists O. simpl. lia.
  - destruct (ht_set_wf _ _ _ _ _ _ IHwf Hset) as [Hwf' [Hc|Hc]].
    + split; [exact Hwf'|]. exists n. congruence.
    + split; [exact Hwf'|]. exists (S n).
      rewrite Hc, IHn, Nat2Z.inj_succ, Z.pow_succ_r by lia. lia.
Qed.

Lemma reachable_run_sets (cap : Z) (fuel : nat)
    (script : list (char_ptr * void_ptr)) :
  forall m m', reachable cap m -> run_sets fuel m script = Ret m' ->
               reachable cap m'.
Proof.
  induction script as [|[k v] script IH]; intros m m' Hm; simpl.
  - intros [= <-]. exact Hm.
  - destruct (ht_set fuel m k v) as [[r m1]| |] eqn:Hset; simpl; try discriminate.
    apply IH. eapply reach_set; eassumption.
Qed.

Lemma reachable_positive (cap : Z) (m : Map) :
  size_t_range cap -> 0 < cap -> reachable cap m -> 0 < capacity m.
Proof.
  intros Hr Hpos Hreach.
  destruct (reachable_wf cap m Hr Hreach) as [_ [n ->]].
  apply Z.mul_pos_pos; [exact Hpos|]. apply Z.pow_pos_nonneg; lia.
Qed.



(** [ht_get] on a well-formed map of positive capacity: the probe returns
    within [capacity] steps. *)
Lemma ht_get_wf (m : Map) (s : c_string) :
  wf m -> 0 < capacity m ->
  exists (n : nat) (r : void_ptr),
    Z.of_nat n <= capacity m
    /\ ht_get_probe n m (ht__hash (c_bytes s) mod capacity m) (Some s) = Ret r
    /\ forall fuel, ht_get fuel m (Some s)
                    = ht_get_probe fuel m (ht__hash (c_bytes s) mod capacity m) (Some s).
Proof.
  intros Hwf Hpos.
  destruct (home_Ret m (ht__hash (c_bytes s)) Hpos) as [Hhome Hidx].
  destruct (wf_empty_slot m Hwf Hpos) as (j & e0 & Hj & He0).
  destruct Hwf as [Hlen Hcap Hload Hocc Hkeyed].
  destruct (probe_distance m Hlen j e0 Hj _ Hidx) as (d & Hd & Hdlt).
  destruct (ht_get_probe_terminates m Hlen Hcap Hkeyed j e0 Hj He0 s d
              _ (S d) Hidx Hd) as [r Hres]; [lia|].
  exists (S d), r. split; [lia|]. split; [exact Hres|].
  intros fuel. unfold ht_get. rewrite Hhome. reflexivity.
Qed.

(** ** The claims *)

(** C5: from any map reachable from [ht_new_map], a call of [ht_set] that
    succeeds (returns a non-null pointer) leaves
    [items <= capacity / 2] (integer division): the growth step at the
    start of the call has left room for one more entry below the 50% bound
    before the probe runs. *)
Theorem ht_set_load_factor (cap : Z) (m : Map) (fuel : nat)
    (k : char_ptr) (v : void_ptr) (r : char_ptr) (m' : Map) :
  size_t_range cap ->
  reachable cap m ->
  ht_set fuel m k v = Ret (r, m') ->
  r <> None ->
  items m' <= capacity m' / 2
  /\ exists m1, ht_set_grow m = Ret (0, m1)
                /\ items m1 + 1 <= capacity m1 / 2
                /\ capacity m' = capacity m1.
Proof.
  intros Hcap Hreach Hset Hr.
  destruct (reachable_wf cap m Hcap Hreach) as [Hwf _].
  destruct (ht_set_wf _ _ _ _ _ _ Hwf Hset) as [[_ _ Hload _ _] _].
  split; [lia|].
  destruct (ht_set_cases m k v Hwf)
    as [_ Hall|_ _ _ _ Hall|_ _ Hall|s m1 r0 m0 n -> _ Hg Hready _ _ _ _ Hall];
    rewrite Hall in Hset; try congruence.
  exists m1. split; [exact Hg|].
  destruct (ht_entry_set_wf _ _ _ _ _ _ _ Hready Hset) as (_ & Hc' & _).
  destruct Hready as [_ _ [_ Hroom] _ _]. auto.
Qed.

Lemma ht_set_load_factor_witness :
  exists m r m',
    run_sets 8 (ht_new_map 4) [(foo, 2); (bar, 1)] = Ret m
    /\ ht_set 8 m bar 3 = Ret (r, m')
    /\ items m' <= capacity m' / 2.
Proof.
  eexists _, _, _. split; [vm_compute; reflexivity|].
  split; [vm_compute; reflexivity|].
  eapply (ht_set_load_factor 4 _ 8 bar 3 _ _).
  - unfold size_t_range. lia.
  - eapply (reachable_run_sets 4 8 [(foo, 2); (bar, 1)]);
      [apply reach_new|vm_compute; reflexivity].
  - vm_compute. reflexivity.
  - discriminate.
Defined.

(** The overflow branch of the growth: whenever doubling the capacity wraps
    around the 64-bit range, or [ht_expand] has returned a negative code,
    [ht_expand] has returned -1 without touching the map, and [ht_set]
    returns [NULL] leaving the map exactly as it was. *)
Theorem ht_set_resize_failure (fuel : nat) (m : Map) (s : c_string)
    (v : void_ptr) :
  capacity m / 2 <= items m ->
  (exists rc m1, ht_expand m = Ret (rc, m1) /\ rc < 0)
  \/ wrap64 (capacity m * 2) < capacity m ->
  ht_expand m = Ret (-1, m)
  /\ ht_set fuel m (Some s) v = Ret (None, m).
Proof.
  intros Hfull Hfail.
  assert (Hexp : ht_expand m = Ret (-1, m)).
  { unfold ht_expand in *.
    destruct (Z.ltb_spec (wrap64 (capacity m * 2)) (capacity m)) as [Hlt|Hge].
    - reflexivity.
    - destruct Hfail as [(rc & m1 & Hexp & Hrc)|Hlt]; [|lia].
      destruct (ht_expand_copy _ _ _ _); simpl in Hexp; try discriminate.
      injection Hexp as <- <-. lia. }
  split; [exact Hexp|].
  unfold ht_set, ht_set_grow, ht_length.
  destruct (Z.geb_spec (items m) (capacity m / 2)); [|lia].
  rewrite Hexp. reflexivity.
Qed.

Lemma ht_set_resize_failure_witness :
  ht_expand huge = Ret (-1, huge) /\ ht_set 1 huge foo 7 = Ret (None, huge).
Proof.
  apply (ht_set_resize_failure 1 huge (CString 4096 "foo") 7).
  - unfold huge. cbn [capacity items]. apply Z.leb_le. reflexivity.
  - right. unfold huge, wrap64. cbn [capacity items]. reflexivity.
Defined.



(** C9: a returning [ht_set] returns [NULL] exactly when it fails (null key
    or failed growth), and then the map is untouched.  Otherwise it returns
    the key pointer of the one slot [j] it wrote, whose value is now the
    argument: when that slot was empty the pointer is the key argument and
    [items] is incremented; when it held an equal key the pointer is the one
    stored there before, the key argument is dropped and [items] stays. *)
Theorem ht_set_returns_slot_key (fuel : nat) (m : Map) (k : char_ptr)
    (v : void_ptr) (r : char_ptr) (m' : Map) :
  ht_set fuel m k v = Ret (r, m') ->
  (r = None /\ m' = m /\ ht_set_fails m k)
  \/ (~ ht_set_fails m k
      /\ exists (p : c_string) (rc : Z) (m1 : Map) (j : nat) (e : ht_entry),
          r = Some p
          /\ ht_set_grow m = Ret (rc, m1)
          /\ ht m1 !! j = Some e
          /\ ht m' = <[j := Entry (Some p) v]> (ht m1)
          /\ ht m' !! j = Some (Entry (Some p) v)
          /\ ((value e = 0 /\ k = Some p
               /\ items m' = wrap64 (items m1 + 1))
              \/ (value e <> 0 /\ key e = Some p
                  /\ (exists b, k = Some b
                                /\ strcmp (c_bytes p) (c_bytes b) = 0)
                  /\ items m' = items m1))).
Proof.
  unfold ht_set. destruct k as [s|].
  2:{ intros [= <- <-]. left. unfold ht_set_fails. auto. }
  destruct (ht_set_grow m) as [[rc m1]| |] eqn:Hg; simpl; try discriminate.
  destruct (Z.ltb_spec rc 0) as [Hrc|Hrc].
  { intros [= <- <-]. left. split; [reflexivity|]. split; [reflexivity|].
    right. exists rc, m1. split; [exact Hg|exact Hrc]. }
  destruct (home m1 (ht__hash (c_bytes s))) as [index| |]; simpl;
    try discriminate.
  intros Hset. right. split.
  { intros [Hk|(rc' & m1' & Hg' & Hrc')]; [discriminate|].
    rewrite Hg in Hg'. injection Hg' as <- <-. lia. }
  apply ht_entry_set_Ret in Hset as (j & e & He & Hht & _ & Hcase).
  assert (Hp : exists p, r = Some p).
  { destruct Hcase as [(_ & -> & _)|(_ & -> & _ & a & _ & -> & _)]; eauto. }
  destruct Hp as [p ->].
  exists p, rc, m1, j, e.
  split; [reflexivity|]. split; [reflexivity|]. split; [exact He|].
  split; [exact Hht|]. split.
  { rewrite Hht. apply list_lookup_insert_eq. eapply lookup_lt_Some, He. }
  destruct Hcase as [(Hv & Hr & Hi)|(Hv & Hr & Hi & a & b & Ha & Hb & Hc)].
  - left. auto.
  - right. split; [exact Hv|]. split; [congruence|]. split; [|exact Hi].
    exists b. split; [exact Hb|].
    assert (a = p) as <- by congruence. exact Hc.
Qed.

Lemma ht_set_returns_slot_key_witness :
  ht_set 4 one_bar bar' 3 = Ret (bar, one_bar_updated)
  /\ ~ ht_set_fails one_bar bar'.
Proof.
  assert (Hset : ht_set 4 one_bar bar' 3 = Ret (bar, one_bar_updated))
    by (vm_compute; reflexivity).
  split; [exact Hset|].
  destruct (ht_set_returns_slot_key 4 one_bar bar' 3 bar one_bar_updated Hset)
    as [(Hnull & _)|(Hok & _)]; [discriminate Hnull|exact Hok].
Defined.



(** The pointer a returning [ht_entry_set] returns and the slot it writes
    do not depend on the value. *)
Lemma ht_entry_set_any_value (fuel : nat) (m : Map) (k : char_ptr)
    (v v2 : void_ptr) :
  forall (index : Z) (r : char_ptr) (m' : Map),
    ht_entry_set fuel m index k v = Ret (r, m') ->
    exists (j : nat) (n : Z),
      (j < length (ht m))%nat
      /\ m' = MkMap (<[j := Entry r v]> (ht m)) (capacity m) n
      /\ ht_entry_set fuel m index k v2
         = Ret (r, MkMap (<[j := Entry r v2]> (ht m)) (capacity m) n).
Proof.
  induction fuel as [|fuel IH]; intros index r m'; simpl; [discriminate|].
  destruct (slot (ht m) index) as [e| |] eqn:He; simpl; try discriminate.
  pose proof He as Hl. apply slot_Ret in Hl as [_ Hl].
  apply lookup_lt_Some in Hl.
  destruct (negb (value e =? 0)).
  - destruct (strcmp_ptr (key e) k) as [c| |]; simpl; try discriminate.
    destruct (c =? 0); [|apply IH].
    unfold store. rewrite He. simpl. intros [= <- <-].
    exists (Z.to_nat index), (items m). auto.
  - unfold store. rewrite He. simpl. intros [= <- <-].
    exists (Z.to_nat index), (wrap64 (items m + 1)). auto.
Qed.

(** C3, as amended: [ht_set] fails, returning [NULL] and leaving the map as
    it is, when the key is null; and a null value never makes it fail: on
    any map and with any key, where [ht_set] returns the pointer [r] for a
    value [v] it returns the same [r] for the value [NULL], leaving the map
    as it is when [r] is [NULL] and the key with the value [NULL] in a slot
    of the table otherwise. *)
Theorem ht_set_rejects_null_key_only :
  (forall (fuel : nat) (m : Map) (v : void_ptr),
      ht_set fuel m None v = Ret (None, m))
  /\ (forall (fuel : nat) (m : Map) (k : char_ptr) (v : void_ptr)
             (r : char_ptr) (m' : Map),
         ht_set fuel m k v = Ret (r, m') ->
         exists m0,
           ht_set fuel m k 0 = Ret (r, m0)
           /\ (r = None -> m0 = m)
           /\ (r <> None -> exists j : nat, ht m0 !! j = Some (Entry r 0))).
Proof.
  split; [reflexivity|].
  intros fuel m k v r m'. unfold ht_set. destruct k as [s|].
  2:{ intros [= <- <-]. exists m. split; [reflexivity|]. split; [auto|].
      intros H. contradiction. }
  destruct (ht_set_grow m) as [[rc m1]| |]; simpl; try discriminate.
  destruct (rc <? 0).
  { intros [= <- <-]. exists m. split; [reflexivity|]. split; [auto|].
    intros H. contradiction. }
  destruct (home m1 (ht__hash (c_bytes s))) as [index| |]; simpl;
    try discriminate.
  intros Hset.
  pose proof (ht_entry_set_Ret _ _ _ _ _ _ _ Hset) as (j0 & e0 & _ & _ & _ & Hcase).
  assert (Hr : r <> None).
  { destruct Hcase as [(_ & -> & _)|(_ & -> & _ & a & b & -> & _)]; discriminate. }
  destruct (ht_entry_set_any_value _ _ _ _ 0 _ _ _ Hset) as (j & n & Hj & _ & Hset0).
  eexists. split; [exact Hset0|]. split; [intros Hn; contradiction|].
  intros _. exists j. simpl. apply list_lookup_insert_eq. exact Hj.
Qed.

Lemma ht_set_rejects_null_key_only_witness :
  exists m0,
    ht_set 4 one_bar bar' 0 = Ret (bar, m0)
    /\ (bar = None -> m0 = one_bar)
    /\ (bar <> None -> exists j : nat, ht m0 !! j = Some (Entry bar 0)).
Proof.
  apply (proj2 ht_set_rejects_null_key_only 4%nat one_bar bar' 3 bar one_bar_updated).
  vm_compute. reflexivity.
Defined.

(** C3, the claim as stated fails on a null value: [ht_set] with a key and
    the value [NULL] returns the key, writes the slot and counts an item. *)
Lemma ht_set_null_value_accepted :
  ht_set 1 (ht_new_map 4) foo 0
  = Ret (foo, MkMap [zero_entry; zero_entry; zero_entry; Entry foo 0] 4 1)
  /\ ht_set 1 (ht_new_map 4) foo 0 <> Ret (None, ht_new_map 4).
Proof. split; [vm_compute; reflexivity|vm_compute; discriminate]. Qed.

(** What [ht_expand] does to a well-formed map that can grow: every slot
    from index [items] on is zeroed in the new table, whatever the old table
    held there, and the slots below keep their old position. *)
Lemma ht_expand_drops (m : Map) (i : nat) :
  wf m -> capacity m < 2 ^ 63 ->
  exists l, ht_expand m = Ret (0, MkMap l (capacity m * 2) (items m))
            /\ (items m <= Z.of_nat i < capacity m * 2 ->
                l !! i = Some zero_entry)
            /\ (Z.of_nat i < items m -> l !! i = kept <$> (ht m !! i)).
Proof.
  intros Hwf Hsmall.
  destruct (ht_expand_wf m Hwf) as [[Hbig _]|[_ Hexp]]; [lia|].
  eexists. split; [exact Hexp|].
  destruct Hwf as [Hlen Hcap Hload Hocc Hkeyed].
  assert (Hhalf : capacity m / 2 <= capacity m)
    by (apply Z.div_le_upper_bound; lia).
  assert (Hpre : length (map kept (take (Z.to_nat (items m)) (ht m)))
                 = Z.to_nat (items m)).
  { rewrite length_map, length_take. lia. }
  unfold copied. split.
  - intros Hi. rewrite lookup_app_r by lia.
    apply lookup_replicate_2. lia.
  - intros Hi. rewrite lookup_app_l by lia.
    change (map kept) with (fmap (M := list) kept).
    rewrite list_lookup_fmap, lookup_take_lt by lia. reflexivity.
Qed.

(** C1, at a failing input: after [ht_new_map(2)], [ht_set("foo", 2)] and
    [ht_set("bar", 1)], the second call has grown the table to 4 slots and
    ["foo"], which sat at index 1 (not below [items] = 1), was not copied:
    [ht_get("foo")] returns [NULL] although its last set value is 2. *)
Theorem ht_get_after_resize_not_found :
  exists m,
    run_sets 4 (ht_new_map 2) [(foo, 2); (bar, 1)] = Ret m
    /\ capacity m = 4
    /\ ht_get 4 m bar = Ret 1
    /\ ht_get 4 m foo = Ret 0.
Proof. eexists. repeat split; vm_compute; reflexivity. Qed.

(** C2, the scenario on the code: after [ht_new_map(4)], [ht_set("foo", 2)],
    [ht_set("bar", 1)], [ht_set("bar", 3)] the capacity is 8 and
    [ht_get("bar")] is 3, but the growth copied neither entry (they sat at
    indices 3 and 2, its loop stops below [items] = 2), so ["bar"] was
    inserted afresh: [ht_length] is 3 and [ht_get("foo")] is [NULL]. *)
Theorem scenario_create4_foo_bar_bar :
  exists m,
    run_sets 8 (ht_new_map 4) [(foo, 2); (bar, 1); (bar, 3)] = Ret m
    /\ ht_length m = 3
    /\ ht_get 8 m bar = Ret 3
    /\ ht_get 8 m foo = Ret 0
    /\ capacity m = 8.
Proof. eexists. repeat split; vm_compute; reflexivity. Qed.

(** C4, at a failing input: after [ht_new_map(1)], [ht_set("bar", 1)],
    [ht_set("bar", 3)] the key ["bar"] occupies slots 0 and 2 of a table of
    4: the second call grew the table, copied the entry to its old index 0,
    and probed from ["bar"]'s home in the new table, 2, which was empty. *)
Theorem duplicate_key_after_resize :
  exists m,
    reachable 1 m
    /\ run_sets 4 (ht_new_map 1) [(bar, 1); (bar, 3)] = Ret m
    /\ ht m = [Entry bar 1; zero_entry; Entry bar 3; zero_entry]
    /\ key_in_slot m "bar" 0 /\ key_in_slot m "bar" 2
    /\ ~ no_duplicate_keys m.
Proof.
  eexists. split; [|split; [vm_compute; reflexivity|]].
  - eapply (reachable_run_sets 1 4 [(bar, 1); (bar, 3)]);
      [apply reach_new|vm_compute; reflexivity].
  - split; [reflexivity|].
    assert (H0 : key_in_slot
                   (MkMap [Entry bar 1; zero_entry; Entry bar 3; zero_entry] 4 2)
                   "bar" 0).
    { eexists _, _. split; [reflexivity|]. split; [discriminate|].
      split; reflexivity. }
    assert (H2 : key_in_slot
                   (MkMap [Entry bar 1; zero_entry; Entry bar 3; zero_entry] 4 2)
                   "bar" 2).
    { eexists _, _. split; [reflexivity|]. split; [discriminate|].
      split; reflexivity. }
    split; [exact H0|]. split; [exact H2|].
    intros Hnodup. specialize (Hnodup _ _ _ H0 H2). discriminate Hnodup.
Qed.

(** ** Keys compare by their bytes *)

Lemma uchar_range (c : ascii) : 0 <= uchar c <= 255.
Proof. unfold uchar. pose proof (N_ascii_bounded c). lia. Qed.

(** [strcmp] is [0] exactly on buffers holding the same C string. *)
Lemma strcmp_zero (a b : string) : strcmp a b = 0 <-> c_str a = c_str b.
Proof.
  revert b. induction a as [|ca ra IH]; intros [|cb rb]; simpl.
  - tauto.
  - pose proof (uchar_range cb).
    destruct (Z.eqb_spec (uchar cb) 0); split; intros H'; try lia;
      try reflexivity; discriminate.
  - pose proof (uchar_range ca).
    destruct (Z.eqb_spec (uchar ca) 0); split; intros H'; try lia;
      try reflexivity; discriminate.
  - destruct (Z.eqb_spec (uchar ca) (uchar cb)) as [Heq|Hne].
    + rewrite <- Heq.
      destruct (Z.eqb_spec (uchar ca) 0); [tauto|].
      rewrite IH. split; [intros ->; reflexivity|intros [= H']; exact H'].
    + destruct (Z.eqb_spec (uchar ca) 0), (Z.eqb_spec (uchar cb) 0);
        split; intros H'; try lia; try discriminate.
      injection H' as H1 _. contradiction.
Qed.

Lemma strcmp_refl (a : string) : strcmp a a = 0.
Proof. apply strcmp_zero. reflexivity. Qed.

Lemma strcmp_congr (a b b' : string) :
  c_str b = c_str b' -> strcmp a b = 0 <-> strcmp a b' = 0.
Proof. intros Hb. rewrite !strcmp_zero, Hb. reflexivity. Qed.

Lemma ht__hash_c_str (a b : string) :
  c_str a = c_str b -> ht__hash a = ht__hash b.
Proof.
  intros Heq. unfold ht__hash. rewrite !ht__hash_from_fold, Heq. reflexivity.
Qed.

(** ** Probe paths *)

Lemma probes_to_end (m : Map) (s : string) (i j : Z) :
  probes_to m s i j ->
  exists e, slot (ht m) j = Ret e
            /\ (value e = 0
                \/ exists a, key e = Some a /\ strcmp (c_bytes a) s = 0).
Proof.
  induction 1 as [index e He Hstop|index e a j He Hv Hk Hc _ IH]; eauto.
Qed.

(** A probe has one end. *)
Lemma probes_to_functional (m : Map) (s : string) (i j j' : Z) :
  probes_to m s i j -> probes_to m s i j' -> j = j'.
Proof.
  induction 1 as [index e He Hstop|index e a j He Hv Hk Hc _ IH];
    intros H'; inversion H' as [index' e' He' Hstop'|index' e' a' j'' He' Hv' Hk' Hc' Hnext];
    subst; try reflexivity.
  - rewrite He in He'. injection He' as <-.
    destruct Hstop as [Hz|(a0 & Ha0 & Hc0)]; [contradiction|congruence].
  - rewrite He in He'. injection He' as <-.
    destruct Hstop' as [Hz|(a0 & Ha0 & Hc0)]; [contradiction|congruence].
  - apply IH. exact Hnext.
Qed.

(** The path depends on the bytes of the key only. *)
Lemma probes_to_congr (m : Map) (s s' : string) (i j : Z) :
  c_str s = c_str s' -> probes_to m s i j -> probes_to m s' i j.
Proof.
  intros Heq. induction 1 as [index e He Hstop|index e a j He Hv Hk Hc _ IH].
  - eapply probes_stop; [exact He|].
    destruct Hstop as [Hz|(a & Ha & Hc)]; [auto|].
    right. exists a. split; [exact Ha|]. apply (strcmp_congr _ s s' Heq), Hc.
  - eapply probes_step; eauto.
    intros Hc'. apply Hc. apply (strcmp_congr _ s s' Heq), Hc'.
Qed.

(** [ht_get_probe] returns the value field of the slot its path ends on. *)
Lemma ht_get_probe_path (fuel : nat) (m : Map) (index : Z) (s : c_string)
    (r : void_ptr) :
  ht_get_probe fuel m index (Some s) = Ret r ->
  exists j e, probes_to m (c_bytes s) index j
              /\ slot (ht m) j = Ret e /\ r = value e.
Proof.
  revert index. induction fuel as [|fuel IH]; intros index; simpl; [discriminate|].
  destruct (slot (ht m) index) as [e| |] eqn:He; simpl; try discriminate.
  destruct (Z.eqb_spec (value e) 0) as [Hv|Hv]; simpl.
  - intros [= <-]. exists index, e. split; [|auto].
    eapply probes_stop; eauto.
  - destruct (key e) as [a|] eqn:Hk; simpl; try discriminate.
    destruct (Z.eqb_spec (strcmp (c_bytes a) (c_bytes s)) 0) as [Hc|Hc].
    + intros [= <-]. exists index, e. split; [|auto].
      eapply probes_stop; eauto.
    + intros Hrec. destruct (IH _ Hrec) as (j & e' & Hp & He' & Hr).
      exists j, e'. split; [|auto]. eapply probes_step; eauto.
Qed.

(** Conversely, with enough fuel. *)
Lemma probes_to_get (m : Map) (s : c_string) (i j : Z) (e : ht_entry) :
  probes_to m (c_bytes s) i j ->
  slot (ht m) j = Ret e ->
  exists n, ht_get_probe n m i (Some s) = Ret (value e).
Proof.
  induction 1 as [index e0 He0 Hstop|index e0 a j He0 Hv Hk Hc _ IH]; intros He.
  - exists 1%nat. simpl. rewrite He0 in *. injection He as ->. simpl.
    destruct (Z.eqb_spec (value e) 0) as [Hz|Hz]; simpl;
      [rewrite Hz; reflexivity|].
    destruct Hstop as [Hz'|(a & -> & Hc)]; [contradiction|]. simpl.
    rewrite Hc. reflexivity.
  - destruct (IH He) as [n Hn]. exists (S n). simpl. rewrite He0. simpl.
    destruct (Z.eqb_spec (value e0) 0); [contradiction|]. simpl.
    rewrite Hk. simpl.
    destruct (Z.eqb_spec (strcmp (c_bytes a) (c_bytes s)) 0); [contradiction|].
    exact Hn.
Qed.

(** [ht_entry_set] writes the slot its path ends on, and [ht_get_probe]
    run on the same map with the same fuel ends there too. *)
Lemma ht_entry_set_path (fuel : nat) (m : Map) (index : Z) (s : c_string)
    (v : void_ptr) (r : char_ptr) (m' : Map) :
  ht_entry_set fuel m index (Some s) v = Ret (r, m') ->
  exists j e,
    probes_to m (c_bytes s) index j
    /\ slot (ht m) j = Ret e
    /\ ht_get_probe fuel m index (Some s) = Ret (value e)
    /\ ((value e = 0 /\ r = Some s
         /\ m' = written m j (Entry (Some s) v) (wrap64 (items m + 1)))
        \/ (value e <> 0 /\ r = key e
            /\ m' = written m j (Entry (key e) v) (items m)
            /\ exists a, key e = Some a
                         /\ strcmp (c_bytes a) (c_bytes s) = 0)).
Proof.
  revert index. induction fuel as [|fuel IH]; intros index; simpl; [discriminate|].
  destruct (slot (ht m) index) as [e| |] eqn:He; simpl; try discriminate.
  destruct (Z.eqb_spec (value e) 0) as [Hv|Hv]; simpl.
  - unfold store. rewrite He. simpl. intros [= <- <-].
    exists index, e. split; [eapply probes_stop; eauto|].
    split; [exact He|]. split; [rewrite Hv; reflexivity|]. left. auto.
  - destruct (key e) as [a|] eqn:Hk; simpl; try discriminate.
    destruct (Z.eqb_spec (strcmp (c_bytes a) (c_bytes s)) 0) as [Hc|Hc].
    + unfold store. rewrite He. simpl. intros [= <- <-].
      exists index, e. split; [eapply probes_stop; eauto|].
      split; [exact He|]. split; [reflexivity|]. right.
      rewrite Hk. split; [exact Hv|]. split; [reflexivity|].
      split; [reflexivity|]. eauto.
    + intros Hrec.
      destruct (IH _ Hrec) as (j & e' & Hp & He' & Hget & Hcase).
      exists j, e'. split; [eapply probes_step; eauto|]. auto.
Qed.

(** ** Paths through a written table *)

Lemma slot_written_eq (m : Map) (j n : Z) (e0 e : ht_entry) :
  slot (ht m) j = Ret e0 -> slot (ht (written m j e n)) j = Ret e.
Proof.
  intros H. apply slot_Ret in H as [Hj Hl]. apply slot_Ret. split; [exact Hj|].
  simpl. apply list_lookup_insert_eq. eapply lookup_lt_Some, Hl.
Qed.

Lemma slot_written_ne (m : Map) (i j n : Z) (e : ht_entry) :
  0 <= j -> i <> j -> slot (ht (written m j e n)) i = slot (ht m) i.
Proof.
  intros Hj Hne. unfold slot. destruct (Z.ltb_spec i 0); [reflexivity|].
  simpl. rewrite list_lookup_insert_ne by lia. reflexivity.
Qed.

(** Writing the end of a path with the key probed for (or with a null
    value) leaves the path as it is. *)
Lemma probes_to_write (m : Map) (s : string) (i j n : Z) (e' : ht_entry) :
  probes_to m s i j ->
  value e' = 0 \/ (exists a, key e' = Some a /\ strcmp (c_bytes a) s = 0) ->
  probes_to (written m j e' n) s i j.
Proof.
  intros Hp He'.
  induction Hp as [index e He Hstop|index e a j He Hv Hk Hc Hnext IH].
  - eapply probes_stop; [eapply slot_written_eq, He|exact He'].
  - destruct (probes_to_end _ _ _ _ Hnext) as (ej & Hej & Hstop).
    assert (Hne : index <> j).
    { intros ->. rewrite He in Hej. injection Hej as <-.
      destruct Hstop as [Hz|(a0 & Ha0 & Hc0)]; [contradiction|congruence]. }
    apply slot_Ret in Hej as [Hj _].
    eapply probes_step; eauto.
    rewrite slot_written_ne by assumption. exact He.
Qed.

(** Writing a slot that is not the end of a path leaves the path as it is,
    when the slot was empty, or keeps its key and stays occupied. *)
Lemma probes_to_other (m : Map) (s : string) (i j j0 n : Z) (e0 e' : ht_entry) :
  probes_to m s i j ->
  slot (ht m) j0 = Ret e0 ->
  j <> j0 ->
  value e0 = 0 \/ (key e' = key e0 /\ value e' <> 0) ->
  probes_to (written m j0 e' n) s i j.
Proof.
  intros Hp He0 Hne Hkind.
  assert (Hj0 : 0 <= j0) by (apply slot_Ret in He0 as [H _]; exact H).
  induction Hp as [index e He Hstop|index e a j He Hv Hk Hc Hnext IH].
  - eapply probes_stop; [|exact Hstop].
    rewrite slot_written_ne by assumption. exact He.
  - destruct (Z.eq_dec index j0) as [->|Hne'].
    + rewrite He in He0. injection He0 as <-.
      destruct Hkind as [Hz|[Hkey Hval]]; [contradiction|].
      eapply probes_step with (e := e') (a := a); eauto.
      * eapply slot_written_eq, He.
      * congruence.
    + eapply probes_step; eauto.
      rewrite slot_written_ne by assumption. exact He.
Qed.

(** ** Lookups on a well-formed map *)

(** [ht_get] returns, and with fuel [capacity] or more its result is the
    value field of the slot the path from the key's home ends on. *)
Lemma ht_get_value (m : Map) (s : c_string) :
  wf m -> 0 < capacity m ->
  exists j e,
    probes_to m (c_bytes s) (ht__hash (c_bytes s) mod capacity m) j
    /\ slot (ht m) j = Ret e
    /\ forall fuel, capacity m <= Z.of_nat fuel ->
                    ht_get fuel m (Some s) = Ret (value e).
Proof.
  intros Hwf Hpos.
  destruct (ht_get_wf m s Hwf Hpos) as (n & r & Hn & Hres & Hall).
  destruct (ht_get_probe_path _ _ _ _ _ Hres) as (j & e & Hp & He & ->).
  exists j, e. split; [exact Hp|]. split; [exact He|].
  intros fuel Hfuel. rewrite Hall, <- Hres.
  apply ht_get_probe_fuel; [lia|]. rewrite Hres. discriminate.
Qed.

Lemma ht_get_at (m : Map) (s : c_string) (j : Z) (e : ht_entry) :
  wf m -> 0 < capacity m ->
  probes_to m (c_bytes s) (ht__hash (c_bytes s) mod capacity m) j ->
  slot (ht m) j = Ret e ->
  forall fuel, capacity m <= Z.of_nat fuel ->
               ht_get fuel m (Some s) = Ret (value e).
Proof.
  intros Hwf Hpos Hp He.
  destruct (ht_get_value m s Hwf Hpos) as (j' & e' & Hp' & He' & Hall).
  assert (j' = j) as -> by (eapply probes_to_functional; eassumption).
  rewrite He in He'. injection He' as <-. exact Hall.
Qed.

Lemma ready_wf (m : Map) : ready m -> wf m /\ 0 < capacity m.
Proof.
  intros [Hlen Hcap [Hi Hload] Hocc Hkeyed]. split.
  - constructor; try assumption. lia.
  - destruct (Z.le_gt_cases (capacity m) 0); [|assumption].
    assert (capacity m / 2 <= 0); [|lia].
    apply Z.div_le_upper_bound; lia.
Qed.

(** The write of a returning [ht_entry_set], whichever branch made it. *)
Lemma ht_entry_set_written (fuel : nat) (m : Map) (index : Z) (s : c_string)
    (v : void_ptr) (r : char_ptr) (m' : Map) :
  ht_entry_set fuel m index (Some s) v = Ret (r, m') ->
  exists j0 e0 e' n,
    probes_to m (c_bytes s) index j0
    /\ slot (ht m) j0 = Ret e0
    /\ m' = written m j0 e' n
    /\ value e' = v
    /\ (exists a, key e' = Some a /\ c_str (c_bytes a) = c_str (c_bytes s))
    /\ (value e0 = 0 \/ key e' = key e0).
Proof.
  intros Hset.
  destruct (ht_entry_set_path _ _ _ _ _ _ _ Hset)
    as (j0 & e0 & Hp & He0 & _ & [(Hz & _ & ->)|(Hnz & _ & -> & a & Ha & Hc)]).
  - exists j0, e0, (Entry (Some s) v), (wrap64 (items m + 1)).
    repeat (split; [assumption || reflexivity|]). split; [|auto].
    exists s. auto.
  - exists j0, e0, (Entry (key e0) v), (items m).
    repeat (split; [assumption || reflexivity|]). split; [|auto].
    exists a. split; [exact Ha|]. apply strcmp_zero, Hc.
Qed.

(** One write at the end of the path of [s], on a map where lookups are
    exact. *)
Section ExactWrite.
Variable m : Map.
Variable s : c_string.
Variables (j0 n : Z) (e0 e' : ht_entry).
Hypothesis Hwf : wf m.
Hypothesis Hpos : 0 < capacity m.
Hypothesis Hcons : probe_consistent m.
Hypothesis Hwf' : wf (written m j0 e' n).
Hypothesis Hpath : probes_to m (c_bytes s) (ht__hash (c_bytes s) mod capacity m) j0.
Hypothesis He0 : slot (ht m) j0 = Ret e0.
Hypothesis Hval : value e' <> 0.
Hypothesis Hown : exists a, key e' = Some a /\ c_str (c_bytes a) = c_str (c_bytes s).
Hypothesis Hkind : value e0 = 0 \/ key e' = key e0.

Lemma written_path_own (s2 : string) :
  c_str s2 = c_str (c_bytes s) ->
  probes_to (written m j0 e' n) s2 (ht__hash s2 mod capacity m) j0.
Proof using Hpath Hown.
  intros Heq. rewrite (ht__hash_c_str s2 (c_bytes s) Heq).
  apply (probes_to_congr _ (c_bytes s)); [symmetry; exact Heq|].
  apply probes_to_write; [exact Hpath|].
  right. destruct Hown as (a & Ha & Hc). exists a. split; [exact Ha|].
  apply strcmp_zero, Hc.
Qed.

Lemma written_path_other (s2 : string) (i j : Z) :
  probes_to m s2 i j -> j <> j0 -> probes_to (written m j0 e' n) s2 i j.
Proof using He0 Hval Hkind.
  intros Hp Hne. eapply probes_to_other; eauto.
  destruct Hkind; auto.
Qed.

Lemma written_consistent : probe_consistent (written m j0 e' n).
Proof using Hcons Hpath He0 Hval Hown Hkind.
  intros j e Hj Hv. simpl in Hj.
  assert (H0 : 0 <= j0) by (apply slot_Ret in He0 as [H _]; exact H).
  destruct (Z.eq_dec (Z.of_nat j) j0) as [Heq|Hne].
  - assert (Hj' : j = Z.to_nat j0) by lia. rewrite Hj' in Hj.
    pose proof He0 as Hl. apply slot_Ret in Hl as [_ Hl].
    rewrite list_lookup_insert_eq in Hj by (eapply lookup_lt_Some, Hl).
    injection Hj as <-. destruct Hown as (a & Ha & Hc).
    exists a. split; [exact Ha|]. rewrite Heq. apply written_path_own, Hc.
  - rewrite list_lookup_insert_ne in Hj by lia.
    destruct (Hcons j e Hj Hv) as (a & Ha & Hp).
    exists a. split; [exact Ha|]. apply written_path_other; assumption.
Qed.

Lemma written_get_own (s2 : c_string) (fuel : nat) :
  c_str (c_bytes s2) = c_str (c_bytes s) ->
  capacity m <= Z.of_nat fuel ->
  ht_get fuel (written m j0 e' n) (Some s2) = Ret (value e').
Proof using Hwf' Hpos Hpath He0 Hown.
  intros Heq Hfuel.
  apply (ht_get_at (written m j0 e' n) s2 j0 e' Hwf' Hpos);
    [apply written_path_own, Heq|eapply slot_written_eq, He0|exact Hfuel].
Qed.

Lemma written_get_other (s2 : c_string) (fuel : nat) :
  c_str (c_bytes s2) <> c_str (c_bytes s) ->
  capacity m <= Z.of_nat fuel ->
  ht_get fuel (written m j0 e' n) (Some s2) = ht_get fuel m (Some s2).
Proof using All.
  intros Hdiff Hfuel.
  assert (H0 : 0 <= j0) by (apply slot_Ret in He0 as [H _]; exact H).
  destruct Hown as (a & Ha & Hc).
  destruct (ht_get_value m s2 Hwf Hpos) as (j2 & e2 & Hp2 & He2 & Hall2).
  rewrite (Hall2 fuel Hfuel).
  destruct (Z.eq_dec j2 j0) as [->|Hne].
  - rewrite He0 in He2. injection He2 as <-.
    destruct (probes_to_end _ _ _ _ Hp2) as (e0' & He0' & Hstop).
    rewrite He0 in He0'. injection He0' as <-.
    destruct (Z.eq_dec (value e0) 0) as [Hz|Hnz].
    + rewrite Hz.
      destruct (ht_get_value (written m j0 e' n) s2 Hwf' Hpos)
        as (j' & e'' & Hp' & He'' & Hall').
      rewrite (Hall' fuel Hfuel). f_equal.
      destruct (Z.eq_dec (value e'') 0) as [|Hocc]; [assumption|exfalso].
      destruct (probes_to_end _ _ _ _ Hp') as (ex & Hex & Hstop').
      rewrite He'' in Hex. injection Hex as <-.
      destruct Hstop' as [|(a'' & Ha'' & Hc'')]; [contradiction|].
      apply strcmp_zero in Hc''.
      assert (Hne : j' <> j0).
      { intros ->. rewrite (slot_written_eq _ _ _ _ e' He0) in He''.
        injection He'' as <-. apply Hdiff. congruence. }
      rewrite slot_written_ne in He'' by assumption.
      apply slot_Ret in He'' as [Hj' Hl'].
      destruct (Hcons _ _ Hl' Hocc) as (a3 & Ha3 & Hp3).
      rewrite Z2Nat.id in Hp3 by exact Hj'.
      assert (a3 = a'') as -> by congruence.
      rewrite (ht__hash_c_str _ _ Hc'') in Hp3.
      apply (probes_to_congr _ _ _ _ _ Hc'') in Hp3.
      apply Hne. eapply probes_to_functional; eassumption.
    + exfalso. destruct Hstop as [|(a2 & Ha2 & Hc2)]; [contradiction|].
      destruct Hkind as [|Hkey]; [contradiction|].
      apply strcmp_zero in Hc2. apply Hdiff. congruence.
  - apply (ht_get_at (written m j0 e' n) s2 j2 e2 Hwf' Hpos);
      [apply written_path_other; assumption
      |rewrite slot_written_ne by assumption; exact He2
      |exact Hfuel].
Qed.
End ExactWrite.

(** A returning [ht_entry_set] from the key's home, with a non-null value,
    on a map where lookups are exact: they stay exact, the key now maps to
    the value and every other key to what it mapped to. *)
Lemma ht_entry_set_exact (fuel : nat) (m : Map) (s : c_string) (v : void_ptr)
    (r : char_ptr) (m' : Map) :
  ready m -> probe_consistent m -> v <> 0 ->
  ht_entry_set fuel m (ht__hash (c_bytes s) mod capacity m) (Some s) v
  = Ret (r, m') ->
  exact m'
  /\ capacity m' = capacity m
  /\ items m <= items m' <= items m + 1
  /\ forall (s2 : c_string) (fuel' : nat),
       capacity m <= Z.of_nat fuel' ->
       ht_get fuel' m' (Some s2)
       = if strcmp (c_bytes s) (c_bytes s2) =? 0 then Ret v
         else ht_get fuel' m (Some s2).
Proof.
  intros Hready Hcons Hv Hset.
  destruct (ready_wf m Hready) as [Hwf Hpos].
  destruct (ht_entry_set_wf _ _ _ _ _ _ _ Hready Hset) as (Hwf' & Hcap & _).
  assert (Hitems : items m <= items m' <= items m + 1).
  { destruct (ht_entry_set_Ret _ _ _ _ _ _ _ Hset)
      as (_ & _ & _ & _ & _ & [(_ & _ & Hi)|(_ & _ & Hi & _)]); [|lia].
    destruct Hready as [_ Hc [H0 Hl] _ _].
    assert (capacity m / 2 <= capacity m) by (apply Z.div_le_upper_bound; lia).
    rewrite Hi. unfold wrap64. rewrite Z.mod_small; lia. }
  destruct (ht_entry_set_written _ _ _ _ _ _ _ Hset)
    as (j0 & e0 & e' & n & Hp & He0 & -> & Hval & Hown & Hkind).
  rewrite <- Hval in Hv.
  split; [|split; [exact Hcap|split; [exact Hitems|]]].
  - constructor; [exact Hwf'|simpl; exact Hpos|].
    eapply written_consistent; eassumption.
  - intros s2 fuel' Hfuel.
    destruct (Z.eqb_spec (strcmp (c_bytes s) (c_bytes s2)) 0) as [Heq|Hne].
    + rewrite <- Hval. apply strcmp_zero in Heq.
      eapply written_get_own; eauto.
    + eapply written_get_other; eauto.
      intros Heq. apply Hne, strcmp_zero. symmetry. exact Heq.
Qed.

(** One [ht_set] that does not grow the table. *)
Lemma ht_set_exact (m : Map) (s : c_string) (v : void_ptr) :
  exact m -> items m < capacity m / 2 -> v <> 0 ->
  exists r m',
    (forall fuel, capacity m <= Z.of_nat fuel ->
                  ht_set fuel m (Some s) v = Ret (r, m'))
    /\ r <> None
    /\ exact m'
    /\ capacity m' = capacity m
    /\ items m <= items m' <= items m + 1
    /\ forall (s2 : c_string) (fuel : nat),
         capacity m <= Z.of_nat fuel ->
         ht_get fuel m' (Some s2)
         = if strcmp (c_bytes s) (c_bytes s2) =? 0 then Ret v
           else ht_get fuel m (Some s2).
Proof.
  intros [Hwf Hpos Hcons] Hroom Hv.
  assert (Hgrow : ht_set_grow m = Ret (0, m)).
  { unfold ht_set_grow, ht_length.
    destruct (Z.geb_spec (items m) (capacity m / 2)); [lia|reflexivity]. }
  destruct (ht_set_cases m (Some s) v Hwf)
    as [Hk _|_ Hfull _ _ _|_ Hz _|s' m1 r m' n Hk _ Hg Hready _ _ Hn Hres Hall];
    [discriminate|lia|lia|].
  injection Hk as <-. rewrite Hgrow in Hg. injection Hg as <-.
  exists r, m'.
  destruct (ht_entry_set_exact _ _ _ _ _ _ Hready Hcons Hv Hres)
    as (Hex & Hcap & Hitems & Hget).
  destruct (ht_entry_set_wf _ _ _ _ _ _ _ Hready Hres) as (_ & _ & Hr).
  split; [|auto].
  intros fuel Hfuel. rewrite Hall, <- Hres.
  apply ht_entry_set_fuel; [lia|]. rewrite Hres. discriminate.
Qed.

Lemma count_occupied_none (l : list ht_entry) (j : nat) (e : ht_entry) :
  count_occupied l = O -> l !! j = Some e -> value e = 0.
Proof.
  revert j. induction l as [|x l IH]; intros [|j] Hc Hl; simpl in *;
    try discriminate.
  - injection Hl as ->. destruct (occupied e) eqn:Ho; [discriminate|].
    unfold occupied in Ho. apply negb_false_iff in Ho. lia.
  - destruct (occupied x); [discriminate|]. eapply IH; eassumption.
Qed.

Lemma ht_new_map_exact (cap : Z) :
  size_t_range cap -> 0 < cap -> exact (ht_new_map cap).
Proof.
  intros Hr Hpos. constructor; [apply ht_new_map_wf, Hr|exact Hpos|].
  intros j e Hj Hv. exfalso. apply Hv.
  apply (count_occupied_none (ht (ht_new_map cap)) j e); [|exact Hj].
  apply count_occupied_zeroes.
Qed.

(** A script of [set] calls that fits below the growth threshold. *)
Lemma run_sets_exact (script : list (char_ptr * void_ptr)) :
  forall m : Map,
    exact m ->
    items m + Z.of_nat (length script) <= capacity m / 2 ->
    Forall (fun kv => snd kv <> 0) script ->
    exists m',
      (forall fuel, capacity m <= Z.of_nat fuel ->
                    run_sets fuel m script = Ret m')
      /\ exact m'
      /\ capacity m' = capacity m
      /\ forall (s : c_string) (r0 : Z),
           (forall fuel, capacity m <= Z.of_nat fuel ->
                         ht_get fuel m (Some s) = Ret r0) ->
           forall fuel, capacity m <= Z.of_nat fuel ->
                        ht_get fuel m' (Some s)
                        = Ret (last_set script r0 (c_bytes s)).
Proof.
  induction script as [|[[a|] v] script IH]; intros m Hex Hlen Hvals.
  - exists m. simpl. auto.
  - apply Forall_cons in Hvals as [Hv Hvals]. simpl in Hv, Hlen.
    destruct (ht_set_exact m a v Hex) as (r & m1 & Hset & _ & Hex1 & Hcap1 & Hit1 & Hget1);
      [lia|exact Hv|].
    destruct (IH m1 Hex1) as (m' & Hrun & Hex' & Hcap' & Hget');
      [rewrite Hcap1; lia|exact Hvals|].
    exists m'. split; [|split; [exact Hex'|split; [congruence|]]].
    + intros fuel Hfuel. cbn [run_sets]. rewrite (Hset fuel Hfuel). simpl.
      apply Hrun. lia.
    + intros s r0 Hr0 fuel Hfuel. simpl.
      apply Hget'; [|lia].
      intros fuel' Hfuel'. rewrite Hget1 by lia.
      destruct (strcmp (c_bytes a) (c_bytes s) =? 0); [reflexivity|].
      apply Hr0. lia.
  - apply Forall_cons in Hvals as [_ Hvals]. simpl in Hlen.
    destruct (IH m Hex) as (m' & Hrun & Hex' & Hcap' & Hget'); [lia|exact Hvals|].
    exists m'. split; [|auto].
    intros fuel Hfuel. simpl. apply Hrun, Hfuel.
Qed.


(** ** Set, then get *)

Lemma ht_get_probe_S (fuel : nat) (m : Map) (index : Z) (k : char_ptr) :
  ht_get_probe (S fuel) m index k
  = (e <- slot (ht m) index;;
     if negb (value e =? 0)
     then c <- strcmp_ptr (key e) k;;
          if c =? 0 then Ret (value e)
          else ht_get_probe fuel m (next_index m index) k
     else Ret 0).
Proof. reflexivity. Qed.

(** The probe of [ht_get] after a returning [ht_entry_set], from the same
    index and with the same fuel, for any key with the same bytes. *)
Lemma ht_entry_set_then_get (fuel : nat) (m : Map) (s s2 : c_string)
    (v : void_ptr) :
  c_str (c_bytes s2) = c_str (c_bytes s) ->
  forall (index : Z) (r : char_ptr) (m' : Map),
    ht_entry_set fuel m index (Some s) v = Ret (r, m') ->
    ht_get_probe fuel m' index (Some s2) = Ret v.
Proof.
  intros Heq. induction fuel as [|fuel IH]; intros index r m' Hset;
    [discriminate|].
  pose proof Hset as Hw.
  apply ht_entry_set_written in Hw
    as (j0 & e0 & e' & n & Hp & He0 & -> & Hval & (a' & Ha' & Hc') & _).
  assert (H0 : 0 <= j0) by (apply slot_Ret in He0 as [H _]; exact H).
  simpl in Hset. rewrite ht_get_probe_S.
  destruct (slot (ht m) index) as [e| |] eqn:He; simpl in Hset; try discriminate.
  assert (Hhit : index = j0 ->
                 (e1 <- slot (ht (written m j0 e' n)) index;;
                  if negb (value e1 =? 0)
                  then c <- strcmp_ptr (key e1) (Some s2);;
                       if c =? 0 then Ret (value e1)
                       else ht_get_probe fuel (written m j0 e' n)
                              (next_index (written m j0 e' n) index) (Some s2)
                  else Ret 0) = Ret v).
  { intros ->. rewrite (slot_written_eq _ _ _ _ e' He0). simpl.
    destruct (Z.eqb_spec (value e') 0) as [Hz|Hz]; simpl.
    - rewrite <- Hval, Hz. reflexivity.
    - rewrite Ha'. simpl.
      replace (strcmp (c_bytes a') (c_bytes s2)) with 0
        by (symmetry; apply strcmp_zero; congruence).
      simpl. rewrite Hval. reflexivity. }
  assert (Hend : index = j0 \/
                 (index <> j0 /\ exists a, value e <> 0 /\ key e = Some a
                               /\ strcmp (c_bytes a) (c_bytes s) <> 0
                               /\ ht_entry_set fuel m (next_index m index) (Some s) v
                                  = Ret (r, written m j0 e' n))).
  { inversion Hp as [i1 e1 He1 Hstop|i1 e1 a1 j1 He1 Hv1 Hk1 Hc1 Hnext];
      subst; [left; reflexivity|].
    rewrite He in He1. injection He1 as <-.
    destruct (Z.eq_dec index j0) as [->|Hne]; [left; reflexivity|].
    right. split; [exact Hne|]. exists a1.
    destruct (Z.eqb_spec (value e) 0); [contradiction|]. simpl in Hset.
    rewrite Hk1 in Hset. simpl in Hset.
    destruct (Z.eqb_spec (strcmp (c_bytes a1) (c_bytes s)) 0); [contradiction|].
    auto. }
  destruct Hend as [Heq0|(Hne & a & Hv & Hk & Hc & Hrec)]; [apply Hhit, Heq0|].
  rewrite slot_written_ne by assumption. rewrite He. simpl.
  destruct (Z.eqb_spec (value e) 0); [contradiction|]. simpl.
  rewrite Hk. simpl.
  destruct (Z.eqb_spec (strcmp (c_bytes a) (c_bytes s2)) 0) as [Hc2|Hc2].
  { exfalso. apply Hc. apply strcmp_zero. apply strcmp_zero in Hc2. congruence. }
  apply (IH _ _ _ Hrec).
Qed.

(** [ht_get] looks at the bytes of the key only. *)
Lemma ht_get_probe_congr (fuel : nat) (m : Map) (s s2 : c_string) :
  c_str (c_bytes s2) = c_str (c_bytes s) ->
  forall index, ht_get_probe fuel m index (Some s2)
                = ht_get_probe fuel m index (Some s).
Proof.
  intros Heq. induction fuel as [|fuel IH]; intros index; simpl; [reflexivity|].
  destruct (slot (ht m) index) as [e| |]; simpl; try reflexivity.
  destruct (negb (value e =? 0)); [|reflexivity].
  destruct (key e) as [a|]; simpl; [|reflexivity].
  destruct (Z.eqb_spec (strcmp (c_bytes a) (c_bytes s2)) 0) as [H2|H2],
           (Z.eqb_spec (strcmp (c_bytes a) (c_bytes s)) 0) as [H1|H1];
    try reflexivity; try apply IH.
  - exfalso. apply H1. apply strcmp_zero. apply strcmp_zero in H2. congruence.
  - exfalso. apply H2. apply strcmp_zero. apply strcmp_zero in H1. congruence.
Qed.

(** ** Further properties of the table *)

Lemma ht_new_map_get (cap : Z) (s : c_string) (fuel : nat) :
  size_t_range cap -> 0 < cap -> (0 < fuel)%nat ->
  ht_get fuel (ht_new_map cap) (Some s) = Ret 0.
Proof.
  intros [Hlo Hhi] Hpos Hfuel. unfold ht_get.
  destruct (home_Ret (ht_new_map cap) (ht__hash (c_bytes s)) Hpos)
    as [-> Hidx].
  simpl in Hidx |- *. destruct fuel as [|fuel]; [lia|]. simpl.
  unfold slot, calloc.
  destruct (Z.ltb_spec (ht__hash (c_bytes s) mod cap) 0); [lia|].
  rewrite lookup_replicate_2 by lia. reflexivity.
Qed.

Lemma ht_set_then_get (fuel : nat) (m : Map) (s s2 : c_string)
    (v : void_ptr) (r : char_ptr) (m' : Map) :
  ht_set fuel m (Some s) v = Ret (r, m') ->
  r <> None ->
  c_str (c_bytes s2) = c_str (c_bytes s) ->
  ht_get fuel m' (Some s2) = Ret v.
Proof.
  unfold ht_set. intros Hset Hr Heq.
  destruct (ht_set_grow m) as [[rc m1]| |]; simpl in Hset; try discriminate.
  destruct (rc <? 0); [injection Hset as <- _; contradiction|].
  unfold home in Hset.
  destruct (Z.eqb_spec (capacity m1) 0) as [|Hnz]; simpl in Hset;
    [discriminate|].
  pose proof (ht_entry_set_Ret _ _ _ _ _ _ _ Hset) as (j & e & _ & _ & Hcap & _).
  unfold ht_get, home. rewrite Hcap.
  destruct (Z.eqb_spec (capacity m1) 0); [contradiction|]. simpl.
  rewrite (ht__hash_c_str _ _ Heq).
  eapply ht_entry_set_then_get; eassumption.
Qed.

(** X2: on any map, after a call of [ht_set] that returns a non-null
    pointer, [ht_get] with the same fuel and any key holding the same bytes
    (whatever its address) returns the value just set; for the value [NULL]
    that is the answer "not found". *)
Theorem ht_get_after_ht_set (fuel : nat) (m : Map) (s s2 : c_string)
    (v : void_ptr) (r : char_ptr) (m' : Map) :
  ht_set fuel m (Some s) v = Ret (r, m') ->
  r <> None ->
  c_str (c_bytes s2) = c_str (c_bytes s) ->
  ht_get fuel m' (Some s2) = Ret v.
Proof. apply ht_set_then_get. Qed.

Lemma ht_get_after_ht_set_witness :
  exists r m',
    ht_set 8 one_bar bar 3 = Ret (r, m')
    /\ ht_get 8 m' bar' = Ret 3.
Proof.
  eexists _, _. split; [vm_compute; reflexivity|].
  apply (ht_get_after_ht_set 8 one_bar (CString 4112 "bar")
           (CString 8192 "bar") 3 bar).
  - vm_compute. reflexivity.
  - discriminate.
  - reflexivity.
Defined.

(** X3: [ht_get] depends on the bytes of the key before its terminator
    only: two keys holding the same C string, at whatever addresses, get
    the same answer from any map. *)
Theorem ht_get_by_bytes (fuel : nat) (m : Map) (s s2 : c_string) :
  c_str (c_bytes s2) = c_str (c_bytes s) ->
  ht_get fuel m (Some s2) = ht_get fuel m (Some s).
Proof.
  intros Heq. unfold ht_get. rewrite (ht__hash_c_str _ _ Heq).
  destruct (home m (ht__hash (c_bytes s))) as [index| |]; simpl;
    try reflexivity.
  apply ht_get_probe_congr, Heq.
Qed.

Lemma ht_get_by_bytes_witness :
  ht_get 4 one_bar bar' = ht_get 4 one_bar bar.
Proof.
  apply (ht_get_by_bytes 4 one_bar (CString 4112 "bar") (CString 8192 "bar")).
  reflexivity.
Defined.

(** X5: on a reachable map, a returning [ht_set] changes [ht_length] by 0
    or 1 and never lowers it, leaves the capacity as it is or doubles it,
    and leaves the whole map unchanged when it returns [NULL]. *)
Theorem ht_set_length_step (cap : Z) (m : Map) (fuel : nat) (k : char_ptr)
    (v : void_ptr) (r : char_ptr) (m' : Map) :
  size_t_range cap -> reachable cap m ->
  ht_set fuel m k v = Ret (r, m') ->
  ht_length m <= ht_length m' <= ht_length m + 1
  /\ (capacity m' = capacity m \/ capacity m' = capacity m * 2)
  /\ (r = None -> m' = m).
Proof.
  intros Hcap Hreach Hset. unfold ht_length.
  destruct (reachable_wf cap m Hcap Hreach) as [Hwf _].
  destruct (ht_set_cases m k v Hwf)
    as [_ Hall|_ _ _ _ Hall|_ _ Hall|s m1 r0 m0 n -> _ _ Hready Hc Hi _ _ Hall];
    rewrite Hall in Hset.
  - injection Hset as <- <-. split; [lia|]. auto.
  - injection Hset as <- <-. split; [lia|]. auto.
  - discriminate.
  - destruct (ht_entry_set_wf _ _ _ _ _ _ _ Hready Hset) as (_ & Hc' & Hr).
    destruct (ht_entry_set_Ret _ _ _ _ _ _ _ Hset)
      as (j & e & _ & _ & _ & Hcase).
    split; [|split; [rewrite Hc'; exact Hc|intros Hnone; contradiction]].
    destruct Hready as [Hlen Hlt [H0 Hl] _ _].
    assert (capacity m1 / 2 <= capacity m1)
      by (apply Z.div_le_upper_bound; lia).
    destruct Hcase as [(_ & _ & ->)|(_ & _ & -> & _)]; [|lia].
    unfold wrap64. rewrite Z.mod_small; lia.
Qed.

Lemma ht_set_length_step_witness :
  exists m r m',
    run_sets 8 (ht_new_map 4) [(foo, 2); (bar, 1)] = Ret m
    /\ ht_set 8 m bar 3 = Ret (r, m')
    /\ ht_length m <= ht_length m' <= ht_length m + 1.
Proof.
  eexists _, _, _. split; [vm_compute; reflexivity|].
  split; [vm_compute; reflexivity|].
  eapply (ht_set_length_step 4 _ 8 bar 3 _ _).
  - unfold size_t_range. lia.
  - eapply (reachable_run_sets 4 8 [(foo, 2); (bar, 1)]);
      [apply reach_new|vm_compute; reflexivity].
  - vm_compute. reflexivity.
Defined.

(** A returning [ht_set] that does not grow a well-formed map: the probe of
    [ht_get] for the same key on the map before the call tells which branch
    was taken. *)
Lemma ht_set_no_growth (fuel : nat) (m : Map) (s : c_string) (v : void_ptr)
    (r : char_ptr) (m' : Map) :
  wf m -> items m < capacity m / 2 ->
  ht_set fuel m (Some s) v = Ret (r, m') ->
  capacity m' = capacity m
  /\ ((ht_get fuel m (Some s) = Ret 0 /\ r = Some s
       /\ items m' = items m + 1)
      \/ (exists v0, v0 <> 0 /\ ht_get fuel m (Some s) = Ret v0
                     /\ r <> None /\ items m' = items m)).
Proof.
  intros Hwf Hroom Hset.
  assert (Hgrow : ht_set_grow m = Ret (0, m)).
  { unfold ht_set_grow, ht_length.
    destruct (Z.geb_spec (items m) (capacity m / 2)); [lia|reflexivity]. }
  destruct (ht_set_cases m (Some s) v Hwf)
    as [Hk _|_ Hfull _ _ _|_ Hz _|s' m1 r0 m0 n Hk Hpos Hg Hready _ _ _ _ Hall].
  - discriminate.
  - lia.
  - destruct Hwf as [Hlen _ [H0 Hl] _ _]. rewrite Hz in Hroom.
    change (0 / 2) with 0 in Hroom. lia.
  - injection Hk as <-. rewrite Hgrow in Hg. injection Hg as <-.
    rewrite Hall in Hset.
    assert (Hget : ht_get fuel m (Some s)
                   = ht_get_probe fuel m (ht__hash (c_bytes s) mod capacity m)
                                  (Some s)).
    { unfold ht_get. destruct (home_Ret m (ht__hash (c_bytes s)) Hpos) as [-> _].
      reflexivity. }
    rewrite Hget.
    destruct (ht_entry_set_path _ _ _ _ _ _ _ Hset)
      as (j & e & _ & _ & Hprobe & Hcase).
    destruct Hcase as [(Hz & -> & ->)|(Hnz & -> & -> & a & Ha & _)]; simpl.
    + split; [reflexivity|]. left. rewrite Hprobe, Hz.
      split; [reflexivity|]. split; [reflexivity|].
      destruct Hwf as [Hlen Hc [H0 Hl] _ _].
      assert (capacity m / 2 <= capacity m)
        by (apply Z.div_le_upper_bound; lia).
      unfold wrap64. rewrite Z.mod_small; lia.
    + split; [reflexivity|]. right. exists (value e).
      rewrite Ha. repeat split; (assumption || discriminate).
Qed.

(** X6: on a reachable map with room below the growth threshold, a
    returning [ht_set] with a non-null key keeps the capacity, and
    [ht_length] grows by one exactly when [ht_get] did not find the key
    before the call (then the key argument is returned); when [ht_get] found
    it, [ht_length] stays. *)
Theorem ht_set_counts_new_keys (cap : Z) (m : Map) (fuel : nat)
    (s : c_string) (v : void_ptr) (r : char_ptr) (m' : Map) :
  size_t_range cap -> reachable cap m ->
  ht_length m < capacity m / 2 ->
  ht_set fuel m (Some s) v = Ret (r, m') ->
  capacity m' = capacity m
  /\ ((ht_get fuel m (Some s) = Ret 0 /\ r = Some s
       /\ ht_length m' = ht_length m + 1)
      \/ (exists v0, v0 <> 0 /\ ht_get fuel m (Some s) = Ret v0
                     /\ r <> None /\ ht_length m' = ht_length m)).
Proof.
  intros Hcap Hreach Hroom Hset.
  destruct (reachable_wf cap m Hcap Hreach) as [Hwf _].
  exact (ht_set_no_growth _ _ _ _ _ _ Hwf Hroom Hset).
Qed.

Lemma ht_set_counts_new_keys_witness :
  exists m r m',
    ht_set 8 (ht_new_map 8) foo 2 = Ret (foo, m)
    /\ ht_set 8 m bar 1 = Ret (r, m')
    /\ capacity m' = capacity m.
Proof.
  eexists _, _, _. split; [vm_compute; reflexivity|].
  split; [vm_compute; reflexivity|].
  eapply (ht_set_counts_new_keys 8 _ 8 (CString 4112 "bar") 1 _ _).
  - unfold size_t_range. lia.
  - eapply (reachable_run_sets 8 8 [(foo, 2)]);
      [apply reach_new|vm_compute; reflexivity].
  - vm_compute. reflexivity.
  - vm_compute. reflexivity.
Defined.

(** X7: storing [NULL] under a key that [ht_get] finds (on a reachable map
    with room below the growth threshold) succeeds, makes [ht_get] answer
    "not found" for that key, and leaves [ht_length] counting it. *)
Theorem ht_set_null_value_hides_key (cap : Z) (m : Map) (fuel : nat)
    (s : c_string) (v0 : void_ptr) (r : char_ptr) (m' : Map) :
  size_t_range cap -> reachable cap m ->
  ht_length m < capacity m / 2 ->
  ht_get fuel m (Some s) = Ret v0 -> v0 <> 0 ->
  ht_set fuel m (Some s) 0 = Ret (r, m') ->
  r <> None
  /\ ht_get fuel m' (Some s) = Ret 0
  /\ ht_length m' = ht_length m.
Proof.
  intros Hcap Hreach Hroom Hget Hv0 Hset.
  destruct (reachable_wf cap m Hcap Hreach) as [Hwf _].
  destruct (ht_set_no_growth _ _ _ _ _ _ Hwf Hroom Hset)
    as [_ [(Hnone & _)|(v1 & _ & _ & Hr & Hitems)]].
  - rewrite Hget in Hnone. injection Hnone as ->. contradiction.
  - split; [exact Hr|]. split; [|exact Hitems].
    eapply ht_set_then_get; [exact Hset|exact Hr|reflexivity].
Qed.

Lemma ht_set_null_value_hides_key_witness :
  exists m r m',
    ht_set 8 (ht_new_map 8) foo 2 = Ret (foo, m)
    /\ ht_set 8 m foo 0 = Ret (r, m')
    /\ r <> None
    /\ ht_get 8 m' foo = Ret 0
    /\ ht_length m' = ht_length m.
Proof.
  eexists _, _, _. split; [vm_compute; reflexivity|].
  split; [vm_compute; reflexivity|].
  eapply (ht_set_null_value_hides_key 8 _ 8 (CString 4096 "foo") 2 _ _).
  - unfold size_t_range. lia.
  - eapply (reachable_run_sets 8 8 [(foo, 2)]);
      [apply reach_new|vm_compute; reflexivity].
  - vm_compute. reflexivity.
  - vm_compute. reflexivity.
  - discriminate.
  - vm_compute. reflexivity.
Defined.

(** X8: on a map where lookups are exact (well formed, probe consistent,
    of positive capacity) and with room below the growth threshold,
    [ht_set] with a non-null key and a non-null value returns a non-null
    pointer within [capacity] steps, keeps lookups exact and the capacity,
    and afterwards [ht_get] returns the new value for keys with the same
    bytes and, for every other key, what it returned before the call. *)
Theorem ht_set_keeps_other_keys (m : Map) (s : c_string) (v : void_ptr) :
  exact m -> ht_length m < capacity m / 2 -> v <> 0 ->
  exists r m',
    (forall fuel, capacity m <= Z.of_nat fuel ->
                  ht_set fuel m (Some s) v = Ret (r, m'))
    /\ r <> None
    /\ exact m'
    /\ capacity m' = capacity m
    /\ ht_length m <= ht_length m' <= ht_length m + 1
    /\ forall (s2 : c_string) (fuel : nat),
         capacity m <= Z.of_nat fuel ->
         ht_get fuel m' (Some s2)
         = if strcmp (c_bytes s) (c_bytes s2) =? 0 then Ret v
           else ht_get fuel m (Some s2).
Proof. apply ht_set_exact. Qed.

Lemma ht_set_keeps_other_keys_witness :
  exists r m',
    (forall fuel, capacity (ht_new_map 4) <= Z.of_nat fuel ->
                  ht_set fuel (ht_new_map 4) foo 2 = Ret (r, m'))
    /\ r <> None.
Proof.
  destruct (ht_set_keeps_other_keys (ht_new_map 4) (CString 4096 "foo") 2)
    as (r & m' & Hset & Hr & _).
  - apply ht_new_map_exact; [unfold size_t_range|]; lia.
  - vm_compute. reflexivity.
  - discriminate.
  - exists r, m'. split; [exact Hset|exact Hr].
Defined.



(** With every request met: on a map reachable from a new map of positive
    capacity, as long as the capacity is below 2^63, [ht_set] with a
    non-null key returns a non-null pointer, within twice the capacity
    steps. *)
Lemma ht_set_met_succeeds (cap : Z) (m : Map) (s : c_string) (v : void_ptr) :
  size_t_range cap -> 0 < cap -> reachable cap m ->
  capacity m < 2 ^ 63 ->
  exists p m',
    forall fuel, capacity m * 2 <= Z.of_nat fuel ->
                 ht_set fuel m (Some s) v = Ret (Some p, m').
Proof.
  intros Hcap Hpos Hreach Hsmall.
  destruct (reachable_wf cap m Hcap Hreach) as [Hwf _].
  pose proof (reachable_positive cap m Hcap Hpos Hreach) as Hpos'.
  destruct (ht_set_cases m (Some s) v Hwf)
    as [Hk _|_ _ Hbig _ _|_ Hz _|s' m1 r m' n _ _ _ Hready Hc _ Hn Hres Hall];
    [discriminate|lia|lia|].
  destruct (ht_entry_set_wf _ _ _ _ _ _ _ Hready Hres) as (_ & _ & Hr).
  destruct r as [p|]; [|contradiction].
  exists p, m'. intros fuel Hfuel. rewrite Hall.
  rewrite (ht_entry_set_fuel n fuel); [exact Hres|lia|].
  rewrite Hres. discriminate.
Qed.

(** With its request met: [ht_expand] on a reachable map of capacity below
    2^63 returns 0, doubles the capacity, keeps [items], copies the slots
    below index [items] to the same index and zeroes the others. *)
Lemma ht_expand_met_table (cap : Z) (m : Map) :
  size_t_range cap -> reachable cap m -> capacity m < 2 ^ 63 ->
  exists l,
    ht_expand m = Ret (0, MkMap l (capacity m * 2) (items m))
    /\ Z.of_nat (length l) = capacity m * 2
    /\ forall i : nat,
         (items m <= Z.of_nat i < capacity m * 2 -> l !! i = Some zero_entry)
         /\ (Z.of_nat i < items m -> l !! i = kept <$> (ht m !! i)).
Proof.
  intros Hcap Hreach Hsmall.
  destruct (reachable_wf cap m Hcap Hreach) as [Hwf _].
  destruct (ht_expand_wf m Hwf) as [[Hbig _]|[_ Hexp]]; [lia|].
  eexists. split; [exact Hexp|]. split.
  - destruct Hwf as [Hlen Hc [H0 Hl] _ _].
    assert (capacity m / 2 <= capacity m) by (apply Z.div_le_upper_bound; lia).
    rewrite length_copied; lia.
  - intros i.
    destruct (ht_expand_drops m i Hwf Hsmall) as (l & Hexp' & Hhigh & Hlow).
    rewrite Hexp in Hexp'. injection Hexp' as <-. auto.
Qed.

(** The loop of [ht_destroy] inside the table. *)
Lemma ht_destroy_loop_spec (n : nat) (l : list ht_entry) :
  forall i : nat,
    (i + n <= length l)%nat ->
    ht_destroy_loop n (Z.of_nat i) l
    = Ret (flat_map frees_of (take n (drop i l))).
Proof.
  induction n as [|n IH]; intros i Hlen; simpl; [reflexivity|].
  destruct (lookup_lt_is_Some_2 l i) as [e He]; [lia|].
  rewrite (slot_of_nat _ _ _ He). simpl.
  replace (Z.of_nat i + 1) with (Z.of_nat (S i)) by lia.
  rewrite IH by lia. simpl.
  rewrite (drop_S _ _ _ He). reflexivity.
Qed.

(** X13: [ht_destroy] on a reachable map stays inside the table and calls
    [free] on the value and the key of the slots at indices below
    [ht_length], in order, whether they are occupied or not, then on the
    table and on the map: slots from index [ht_length] on are not visited. *)
Theorem ht_destroy_reachable (cap : Z) (m : Map) :
  size_t_range cap -> reachable cap m ->
  ht_destroy m
  = Ret (flat_map frees_of (take (Z.to_nat (ht_length m)) (ht m))
         ++ [FreeTable; FreeMap]).
Proof.
  intros Hcap Hreach.
  destruct (reachable_wf cap m Hcap Hreach) as [[Hlen Hc [H0 Hl] _ _] _].
  assert (capacity m / 2 <= capacity m) by (apply Z.div_le_upper_bound; lia).
  unfold ht_destroy. change 0 with (Z.of_nat 0).
  rewrite ht_destroy_loop_spec by (unfold ht_length; lia).
  rewrite drop_0. reflexivity.
Qed.

Lemma ht_destroy_reachable_witness :
  exists m,
    ht_set 4 (ht_new_map 4) foo 2 = Ret (foo, m)
    /\ ht_destroy m
       = Ret [FreeValue 0; FreeKey None; FreeTable; FreeMap].
Proof.
  eexists.
  assert (Hset : ht_set 4 (ht_new_map 4) foo 2
                 = Ret (foo, MkMap [zero_entry; zero_entry; zero_entry; Entry foo 2] 4 1))
    by (vm_compute; reflexivity).
  split; [exact Hset|].
  rewrite (ht_destroy_reachable 4 _ ltac:(unfold size_t_range; lia)
             (reach_set 4 4 _ _ _ _ _ (reach_new 4) Hset)).
  reflexivity.
Defined.

(** ** Where the values of the table come from *)

Lemma holds_only_zeroes (P : list Z -> Z -> Prop) (n : nat) :
  holds_only P (replicate n zero_entry).
Proof. apply Forall_replicate. simpl. intros H. contradiction. Qed.

Lemma ht_expand_copy_holds (P : list Z -> Z -> Prop) (old : list ht_entry)
    (n : nat) :
  holds_only P old ->
  forall (i : Z) (cur l : list ht_entry),
    holds_only P cur ->
    ht_expand_copy n i old cur = Ret l ->
    holds_only P l.
Proof.
  intros Hold. induction n as [|n IH]; intros i cur l Hcur; simpl.
  - intros [= <-]. exact Hcur.
  - destruct (slot old i) as [e| |] eqn:He; simpl; try discriminate.
    apply slot_Ret in He as [_ He].
    destruct (key e) eqn:Hk.
    + destruct (store cur i e) as [cur'| |] eqn:Hst; simpl; try discriminate.
      apply store_Ret in Hst as (_ & _ & ->).
      apply IH. apply Forall_insert; [exact Hcur|].
      unfold holds_only in Hold. rewrite Forall_lookup in Hold.
      exact (Hold _ _ He).
    + apply IH. exact Hcur.
Qed.

Lemma ht_set_grow_holds (P : list Z -> Z -> Prop) (m m1 : Map) (rc : Z) :
  holds_only P (ht m) ->
  ht_set_grow m = Ret (rc, m1) ->
  holds_only P (ht m1).
Proof.
  intros Hm. unfold ht_set_grow, ht_expand.
  destruct (ht_length m >=? capacity m / 2); [|intros [= _ <-]; exact Hm].
  destruct (wrap64 (capacity m * 2) <? capacity m);
    [intros [= _ <-]; exact Hm|].
  destruct (ht_expand_copy _ _ _ _) as [l| |] eqn:Hcopy; simpl;
    try discriminate.
  intros [= _ <-]. simpl.
  eapply ht_expand_copy_holds; [exact Hm| |exact Hcopy].
  apply holds_only_zeroes.
Qed.

Lemma ht_set_holds (P : list Z -> Z -> Prop) (fuel : nat) (m : Map)
    (k : char_ptr) (v : void_ptr) (r : char_ptr) (m' : Map) :
  holds_only P (ht m) ->
  (forall a, k = Some a -> v <> 0 -> P (c_str (c_bytes a)) v) ->
  ht_set fuel m k v = Ret (r, m') ->
  holds_only P (ht m').
Proof.
  intros Hm Hk. unfold ht_set. destruct k as [s|]; [|intros [= _ <-]; exact Hm].
  destruct (ht_set_grow m) as [[rc m1]| |] eqn:Hg; simpl; try discriminate.
  destruct (rc <? 0); [intros [= _ <-]; exact Hm|].
  destruct (home m1 (ht__hash (c_bytes s))) as [index| |]; simpl;
    try discriminate.
  intros Hset.
  apply ht_entry_set_written in Hset
    as (j0 & e0 & e' & n & _ & _ & -> & Hval & (a & Ha & Hc) & _).
  simpl. apply Forall_insert; [eapply ht_set_grow_holds; eassumption|].
  intros Hv. exists a. split; [exact Ha|].
  rewrite Hc, Hval. apply Hk; [reflexivity|congruence].
Qed.

Lemma set_by_cons (kv : char_ptr * void_ptr)
    (script : list (char_ptr * void_ptr)) (bytes : list Z) (v : Z) :
  set_by script bytes v -> set_by (kv :: script) bytes v.
Proof. intros (a & Hin & Hb). exists a. split; [right; exact Hin|exact Hb]. Qed.

Lemma run_sets_holds (fuel : nat) (script : list (char_ptr * void_ptr)) :
  forall (P : list Z -> Z -> Prop) (m m' : Map),
    holds_only P (ht m) ->
    (forall bytes v, set_by script bytes v -> P bytes v) ->
    run_sets fuel m script = Ret m' ->
    holds_only P (ht m').
Proof.
  induction script as [|[k v] script IH]; intros P m m' Hm HP; simpl.
  - intros [= <-]. exact Hm.
  - destruct (ht_set fuel m k v) as [[r m1]| |] eqn:Hset; simpl;
      try discriminate.
    apply IH.
    + eapply ht_set_holds; [exact Hm| |exact Hset].
      intros a -> _. apply HP. exists a. split; [left; reflexivity|reflexivity].
    + intros bytes v' Hby. apply HP, set_by_cons, Hby.
Qed.

(** X14: whatever the script of [ht_set] calls run on a new map, growth
    included, a non-null value returned by [ht_get] for a key is a value
    that some call of the script set under a key with the same bytes:
    lookups never invent a binding. *)
Theorem ht_get_returns_set_values (cap : Z) (fuel fuel' : nat)
    (script : list (char_ptr * void_ptr)) (m : Map) (s : c_string)
    (v : void_ptr) :
  run_sets fuel (ht_new_map cap) script = Ret m ->
  ht_get fuel' m (Some s) = Ret v ->
  v <> 0 ->
  exists a, In (Some a, v) script /\ c_str (c_bytes a) = c_str (c_bytes s).
Proof.
  intros Hrun Hget Hv.
  assert (Hholds : holds_only (set_by script) (ht m)).
  { eapply run_sets_holds; [|intros bytes v' H; exact H|exact Hrun].
    apply holds_only_zeroes. }
  unfold ht_get in Hget.
  destruct (home m (ht__hash (c_bytes s))) as [index| |]; simpl in Hget;
    try discriminate.
  apply ht_get_probe_path in Hget as (j & e & Hp & He & ->).
  destruct (probes_to_end _ _ _ _ Hp) as (e1 & He1 & Hstop).
  rewrite He in He1. injection He1 as <-.
  destruct Hstop as [Hz|(a & Ha & Hc)]; [contradiction|].
  apply slot_Ret in He as [_ He].
  unfold holds_only in Hholds. rewrite Forall_lookup in Hholds.
  destruct (Hholds _ _ He Hv) as (a' & Ha' & a0 & Hin & Hb).
  exists a0. split; [exact Hin|].
  apply strcmp_zero in Hc. congruence.
Qed.

Lemma ht_get_returns_set_values_witness :
  exists a, In (Some a, 3) [(foo, 2); (bar, 1); (bar', 3)]
            /\ c_str (c_bytes a) = c_str "bar".
Proof.
  apply (ht_get_returns_set_values 4 8 8 [(foo, 2); (bar, 1); (bar', 3)]
           (MkMap [zero_entry; zero_entry; Entry bar' 3; zero_entry;
                   zero_entry; zero_entry; zero_entry; zero_entry] 8 3)
           (CString 4112 "bar") 3).
  - vm_compute. reflexivity.
  - vm_compute. reflexivity.
  - discriminate.
Defined.

(** With every request met: after any script, [ht_get] of a key whose
    bytes no call of the script used returns [NULL]. *)
Lemma run_sets_never_set (cap : Z) (fuel : nat)
    (script : list (char_ptr * void_ptr)) (m : Map) (s : c_string) :
  size_t_range cap -> 0 < cap ->
  run_sets fuel (ht_new_map cap) script = Ret m ->
  (forall a v, In (Some a, v) script ->
               strcmp (c_bytes a) (c_bytes s) <> 0) ->
  forall fuel', capacity m <= Z.of_nat fuel' ->
                ht_get fuel' m (Some s) = Ret 0.
Proof.
  intros Hcap Hpos Hrun Hnever fuel' Hfuel.
  assert (Hreach : reachable cap m)
    by (eapply reachable_run_sets; [apply reach_new|exact Hrun]).
  destruct (reachable_wf cap m Hcap Hreach) as [Hwf _].
  pose proof (reachable_positive cap m Hcap Hpos Hreach) as Hpos'.
  assert (Hholds : holds_only (set_by script) (ht m)).
  { eapply run_sets_holds; [|intros bytes v' H; exact H|exact Hrun].
    apply holds_only_zeroes. }
  destruct (ht_get_value m s Hwf Hpos') as (j & e & Hp & He & Hall).
  rewrite (Hall fuel' Hfuel). f_equal.
  destruct (Z.eq_dec (value e) 0) as [|Hv]; [assumption|exfalso].
  destruct (probes_to_end _ _ _ _ Hp) as (e1 & He1 & Hstop).
  rewrite He in He1. injection He1 as <-.
  destruct Hstop as [Hz|(a & Ha & Hc)]; [contradiction|].
  apply slot_Ret in He as [_ He].
  unfold holds_only in Hholds. rewrite Forall_lookup in Hholds.
  destruct (Hholds _ _ He Hv) as (a' & Ha' & a0 & Hin & Hb).
  apply (Hnever a0 (value e) Hin). apply strcmp_zero.
  apply strcmp_zero in Hc. congruence.
Qed.

(** X16: on a map reachable from a new map, a call of [ht_set] that returns
    a non-null pointer has doubled the capacity when the table was at least
    half full on entry ([capacity / 2 <= ht_length]) and has left the
    capacity as it was otherwise. *)
Theorem ht_set_grows_when_half_full (cap : Z) (m : Map) (fuel : nat)
    (s : c_string) (v : void_ptr) (r : char_ptr) (m' : Map) :
  size_t_range cap -> reachable cap m ->
  ht_set fuel m (Some s) v = Ret (r, m') ->
  r <> None ->
  (capacity m / 2 <= ht_length m -> capacity m' = capacity m * 2)
  /\ (ht_length m < capacity m / 2 -> capacity m' = capacity m).
Proof.
  intros Hcap Hreach Hset Hr.
  destruct (reachable_wf cap m Hcap Hreach) as [Hwf _].
  split.
  - intros Hfull. unfold ht_set, ht_set_grow in Hset.
    destruct (Z.geb_spec (ht_length m) (capacity m / 2)); [|lia].
    destruct (ht_expand_wf m Hwf) as [[_ Hexp]|[_ Hexp]];
      rewrite Hexp in Hset; simpl in Hset.
    + injection Hset as <- _. contradiction.
    + destruct (home _ _) as [index| |]; simpl in Hset; try discriminate.
      apply ht_entry_set_Ret in Hset as (j & e & _ & _ & Hc & _).
      exact Hc.
  - intros Hroom.
    destruct (ht_set_no_growth _ _ _ _ _ _ Hwf Hroom Hset) as [Hc _].
    exact Hc.
Qed.

Lemma ht_set_grows_when_half_full_witness :
  exists m r m',
    run_sets 8 (ht_new_map 4) [(foo, 2); (bar, 1)] = Ret m
    /\ ht_set 8 m bar 3 = Ret (r, m')
    /\ capacity m' = capacity m * 2.
Proof.
  eexists _, _, _. split; [vm_compute; reflexivity|].
  split; [vm_compute; reflexivity|].
  eapply (ht_set_grows_when_half_full 4 _ 8 (CString 4112 "bar") 3 _ _).
  - unfold size_t_range. lia.
  - eapply (reachable_run_sets 4 8 [(foo, 2); (bar, 1)]);
      [apply reach_new|vm_compute; reflexivity].
  - vm_compute. reflexivity.
  - discriminate.
  - vm_compute. discriminate.
Defined.

(** ** Under an allocator that can refuse *)

Lemma calloc_with_met (avail : allocator) (n : Z) :
  calloc_met avail n = true -> calloc_with avail n = calloc n.
Proof. unfold calloc_with. intros ->. reflexivity. Qed.

Lemma calloc_with_unmet (avail : allocator) (n : Z) :
  calloc_met avail n = false -> calloc_with avail n = [].
Proof. unfold calloc_with. intros ->. reflexivity. Qed.

(** Every access through a null table faults. *)
Lemma slot_null (i : Z) : slot [] i = Fault OutOfBounds.
Proof. unfold slot. destruct (i <? 0); reflexivity. Qed.

Lemma slot_returns_or_faults (l : list ht_entry) (i : Z) :
  slot l i <> OutOfFuel.
Proof.
  unfold slot. destruct (i <? 0); [discriminate|].
  destruct (l !! Z.to_nat i); discriminate.
Qed.

Lemma ht_entry_set_null (fuel : nat) (m : Map) (index : Z) (k : char_ptr)
    (v : void_ptr) :
  ht m = [] -> ht_entry_set (S fuel) m index k v = Fault OutOfBounds.
Proof. intros H. simpl. rewrite H, slot_null. reflexivity. Qed.

Lemma ht_get_probe_null (fuel : nat) (m : Map) (index : Z) (k : char_ptr) :
  ht m = [] -> ht_get_probe (S fuel) m index k = Fault OutOfBounds.
Proof. intros H. simpl. rewrite H, slot_null. reflexivity. Qed.

Lemma ht_entry_set_null_no_return (fuel : nat) (m : Map) (index : Z)
    (k : char_ptr) (v : void_ptr) (res : char_ptr * Map) :
  ht m = [] -> ht_entry_set fuel m index k v <> Ret res.
Proof.
  intros H. destruct fuel as [|fuel]; [discriminate|].
  rewrite ht_entry_set_null by exact H. discriminate.
Qed.

(** The copy loop of [ht_expand] into a null table: it faults at its first
    write, and returns the null table when it has nothing to write. *)
Lemma ht_expand_copy_null (n : nat) (old : list ht_entry) :
  forall i : Z,
    ht_expand_copy n i old [] = Ret []
    \/ exists f, ht_expand_copy n i old [] = Fault f.
Proof.
  induction n as [|n IH]; intros i; simpl; [left; reflexivity|].
  destruct (slot old i) as [e| |] eqn:He; simpl.
  - destruct (key e); [|apply IH].
    unfold store. rewrite slot_null. simpl. right. eauto.
  - right. eauto.
  - exfalso. exact (slot_returns_or_faults _ _ He).
Qed.

(** Where the request of the growth is met, or the growth stops at the
    overflow test, the allocator plays no part. *)
Lemma ht_expand_with_met (avail : allocator) (m : Map) :
  wrap64 (capacity m * 2) < capacity m
  \/ calloc_met avail (wrap64 (capacity m * 2)) = true ->
  ht_expand_with avail m = ht_expand m.
Proof.
  intros H. unfold ht_expand_with, ht_expand.
  destruct (Z.ltb_spec (wrap64 (capacity m * 2)) (capacity m)); [reflexivity|].
  destruct H as [H|H]; [lia|]. rewrite (calloc_with_met _ _ H). reflexivity.
Qed.

Lemma ht_set_with_met (avail : allocator) (fuel : nat) (m : Map)
    (k : char_ptr) (v : void_ptr) :
  (capacity m / 2 <= ht_length m ->
   wrap64 (capacity m * 2) < capacity m
   \/ calloc_met avail (wrap64 (capacity m * 2)) = true) ->
  ht_set_with avail fuel m k v = ht_set fuel m k v.
Proof.
  intros H. unfold ht_set_with, ht_set, ht_set_grow_with, ht_set_grow.
  destruct k as [s|]; [|reflexivity].
  destruct (Z.geb_spec (ht_length m) (capacity m / 2)); [|reflexivity].
  rewrite ht_expand_with_met by (apply H; lia). reflexivity.
Qed.

(** Where the growth is due and its request is refused, [ht_set] faults:
    in the copy loop, at the division when the new capacity is 0, or at the
    first slot the probe reads. *)
Lemma ht_set_with_unmet (avail : allocator) (fuel : nat) (m : Map)
    (s : c_string) (v : void_ptr) :
  capacity m / 2 <= ht_length m ->
  capacity m <= wrap64 (capacity m * 2) ->
  calloc_met avail (wrap64 (capacity m * 2)) = false ->
  exists f, ht_set_with avail (S fuel) m (Some s) v = Fault f.
Proof.
  intros Hfull Hnowrap Hunmet.
  unfold ht_set_with, ht_set_grow_with, ht_expand_with.
  destruct (Z.geb_spec (ht_length m) (capacity m / 2)); [|lia].
  destruct (Z.ltb_spec (wrap64 (capacity m * 2)) (capacity m)); [lia|].
  rewrite (calloc_with_unmet _ _ Hunmet).
  destruct (ht_expand_copy_null (Z.to_nat (ht_length m)) (ht m) 0)
    as [->|[f ->]]; simpl; [|eauto].
  unfold home. simpl.
  destruct (wrap64 (capacity m * 2) =? 0); simpl; [eauto|].
  rewrite slot_null. simpl. eauto.
Qed.

(** A call of [ht_set] that returns under an allocator returns the same in
    the run where every request is met: a refused request never lets it
    return. *)
Lemma ht_set_with_Ret (avail : allocator) (fuel : nat) (m : Map)
    (k : char_ptr) (v : void_ptr) (r : char_ptr) (m' : Map) :
  ht_set_with avail fuel m k v = Ret (r, m') ->
  ht_set fuel m k v = Ret (r, m').
Proof.
  intros Hset.
  destruct k as [s|]; [|exact Hset].
  destruct (Z.le_gt_cases (capacity m / 2) (ht_length m)) as [Hfull|Hroom].
  2:{ rewrite <- Hset. symmetry. apply ht_set_with_met. lia. }
  destruct (Z.lt_ge_cases (wrap64 (capacity m * 2)) (capacity m)) as [Hw|Hw].
  { rewrite <- Hset. symmetry. apply ht_set_with_met. auto. }
  destruct (calloc_met avail (wrap64 (capacity m * 2))) eqn:Hmet.
  { rewrite <- Hset. symmetry. apply ht_set_with_met. auto. }
  exfalso. destruct fuel as [|fuel].
  - unfold ht_set_with, ht_set_grow_with, ht_expand_with in Hset.
    destruct (Z.geb_spec (ht_length m) (capacity m / 2)); [|lia].
    destruct (Z.ltb_spec (wrap64 (capacity m * 2)) (capacity m)); [lia|].
    rewrite (calloc_with_unmet _ _ Hmet) in Hset.
    destruct (ht_expand_copy_null (Z.to_nat (ht_length m)) (ht m) 0)
      as [Hc|[f Hc]]; rewrite Hc in Hset; simpl in Hset; [|discriminate].
    unfold home in Hset. simpl in Hset.
    destruct (wrap64 (capacity m * 2) =? 0); simpl in Hset; discriminate.
  - destruct (ht_set_with_unmet avail fuel m s v Hfull Hw Hmet) as [f Hf].
    rewrite Hf in Hset. discriminate.
Qed.

Lemma ht_new_map_with_Ret (avail : allocator) (cap : Z) (m : Map) :
  ht_new_map_with avail cap = Ret m ->
  avail sizeof_Map = true
  /\ m = MkMap (calloc_with avail cap) cap 0.
Proof.
  unfold ht_new_map_with. destruct (avail sizeof_Map); [|discriminate].
  intros [= <-]. auto.
Qed.

Lemma ht_new_map_with_met (avail : allocator) (cap : Z) (m : Map) :
  calloc_met avail cap = true ->
  ht_new_map_with avail cap = Ret m -> m = ht_new_map cap.
Proof.
  intros Hmet Hnew. apply ht_new_map_with_Ret in Hnew as [_ ->].
  rewrite (calloc_with_met _ _ Hmet). reflexivity.
Qed.

Lemma reachable_with_reachable (avail : allocator) (cap : Z) (m : Map) :
  calloc_met avail cap = true ->
  reachable_with avail cap m -> reachable cap m.
Proof.
  intros Hmet. induction 1 as [m Hnew|fuel m k v r m' _ IH Hset].
  - rewrite (ht_new_map_with_met _ _ _ Hmet Hnew). apply reach_new.
  - eapply reach_set; [exact IH|]. eapply ht_set_with_Ret, Hset.
Qed.

Lemma run_sets_with_Ret (avail : allocator) (fuel : nat)
    (script : list (char_ptr * void_ptr)) :
  forall m m', run_sets_with avail fuel m script = Ret m' ->
               run_sets fuel m script = Ret m'.
Proof.
  induction script as [|[k v] script IH]; intros m m'; simpl; [auto|].
  destruct (ht_set_with avail fuel m k v) as [[r m1]| |] eqn:Hset; simpl;
    try discriminate.
  rewrite (ht_set_with_Ret _ _ _ _ _ _ _ Hset). simpl. apply IH.
Qed.

Lemma reachable_with_run_sets (avail : allocator) (cap : Z) (fuel : nat)
    (script : list (char_ptr * void_ptr)) :
  forall m m', reachable_with avail cap m ->
               run_sets_with avail fuel m script = Ret m' ->
               reachable_with avail cap m'.
Proof.
  induction script as [|[k v] script IH]; intros m m' Hm; simpl.
  - intros [= <-]. exact Hm.
  - destruct (ht_set_with avail fuel m k v) as [[r m1]| |] eqn:Hset; simpl;
      try discriminate.
    apply IH. eapply reach_with_set; eassumption.
Qed.

(** A script that fits below the growth threshold makes no request. *)
Lemma run_sets_with_exact (avail : allocator)
    (script : list (char_ptr * void_ptr)) :
  forall m : Map,
    exact m ->
    items m + Z.of_nat (length script) <= capacity m / 2 ->
    Forall (fun kv => snd kv <> 0) script ->
    forall fuel, capacity m <= Z.of_nat fuel ->
                 run_sets_with avail fuel m script = run_sets fuel m script.
Proof.
  induction script as [|[[a|] v] script IH]; intros m Hex Hlen Hvals fuel Hfuel;
    [reflexivity| |].
  - apply Forall_cons in Hvals as [Hv Hvals]. simpl in Hv, Hlen.
    cbn [run_sets_with run_sets].
    rewrite ht_set_with_met by (unfold ht_length; lia).
    destruct (ht_set_exact m a v Hex)
      as (r & m1 & Hset & _ & Hex1 & Hcap1 & Hit1 & _); [lia|exact Hv|].
    rewrite (Hset fuel Hfuel). simpl.
    apply IH; [exact Hex1|rewrite Hcap1; lia|exact Hvals|lia].
  - apply Forall_cons in Hvals as [_ Hvals]. simpl in Hlen. simpl.
    apply IH; [exact Hex|lia|exact Hvals|exact Hfuel].
Qed.

(** C6, at a failing input: under an allocator that meets the map and the
    table of 4 slots but not a table of 8, after [ht_new_map(4)],
    [ht_set("foo", 2)] and [ht_set("bar", 1)] the third call
    [ht_set("bar", 3)] has to grow.  [ht_expand] does not test what [calloc]
    returned: it has nothing to copy (the slots below [items] = 2 have no
    key), stores the null table and the capacity 8 in the map and returns 0;
    [ht_set] then reads slot 2 through the null table and faults.  It does
    not return [NULL] with the map left as it was.  Whatever the allocator,
    [ht_expand] on the map of [ht_new_map(2^60)] asks for 2^61 slots, which
    no [calloc] can give: it returns 0 all the same, with the capacity
    doubled. *)
Theorem ht_set_growth_allocation_failure :
  (exists m0 m,
      ht_new_map_with scarce 4 = Ret m0
      /\ run_sets_with scarce 8 m0 [(foo, 2); (bar, 1)] = Ret m
      /\ capacity m = 4 /\ ht_length m = 2
      /\ calloc_met scarce 8 = false
      /\ ht_expand_with scarce m = Ret (0, MkMap [] 8 2)
      /\ (exists f, ht_set_with scarce 8 m bar 3 = Fault f)
      /\ ht_set_with scarce 8 m bar 3 <> Ret (None, m))
  /\ (forall avail : allocator,
         avail sizeof_Map = true ->
         exists m0,
           ht_new_map_with avail (2 ^ 60) = Ret m0
           /\ capacity m0 = 2 ^ 60
           /\ ht_expand_with avail m0 = Ret (0, MkMap [] (2 ^ 61) 0)).
Proof.
  split.
  - eexists _, _. split; [vm_compute; reflexivity|].
    split; [vm_compute; reflexivity|].
    repeat (split; [vm_compute; reflexivity|]).
    split; [eexists; vm_compute; reflexivity|vm_compute; discriminate].
  - intros avail Hmalloc. unfold ht_new_map_with. rewrite Hmalloc.
    assert (H60 : calloc_with avail (2 ^ 60) = []) by reflexivity.
    assert (H61 : calloc_with avail (2 ^ 61) = []) by reflexivity.
    eexists. split; [reflexivity|]. split; [reflexivity|].
    unfold ht_expand_with. cbn [capacity items ht ht_length].
    change (wrap64 (2 ^ 60 * 2)) with (2 ^ 61).
    change (2 ^ 61 <? 2 ^ 60) with false. cbv iota.
    rewrite H61. reflexivity.
Qed.

(** X1: [ht_new_map] with a positive capacity.  When [malloc] refuses the
    map, the store to its table field faults.  When the map and its table
    are allocated, the map has length 0, the capacity asked for, a table of
    that many slots, and [ht_get] of any key returns [NULL] after looking at
    one slot.  When [calloc] refuses the table (as it must when
    [capacity * sizeof(ht_entry)] does not fit [size_t]), the map is still
    returned, with length 0, the capacity asked for and a null table, and
    [ht_get] of any key faults. *)
Theorem ht_new_map_lookup (avail : allocator) (cap : Z) (s : c_string)
    (fuel : nat) :
  size_t_range cap -> 0 < cap -> (0 < fuel)%nat ->
  (avail sizeof_Map = false -> ht_new_map_with avail cap = Fault NullDeref)
  /\ (avail sizeof_Map = true -> calloc_met avail cap = true ->
      exists m, ht_new_map_with avail cap = Ret m
                /\ ht_length m = 0
                /\ capacity m = cap
                /\ Z.of_nat (length (ht m)) = cap
                /\ ht_get fuel m (Some s) = Ret 0)
  /\ (avail sizeof_Map = true -> calloc_met avail cap = false ->
      exists m f, ht_new_map_with avail cap = Ret m
                  /\ ht_length m = 0
                  /\ capacity m = cap
                  /\ ht m = []
                  /\ ht_get fuel m (Some s) = Fault f).
Proof.
  intros Hr Hpos Hfuel. unfold ht_new_map_with.
  split; [intros ->; reflexivity|]. split.
  - intros -> Hmet. rewrite (calloc_with_met _ _ Hmet).
    eexists. split; [reflexivity|]. split; [reflexivity|].
    split; [reflexivity|]. split.
    + simpl. unfold calloc. rewrite length_replicate. destruct Hr. lia.
    + apply (ht_new_map_get cap s fuel); assumption.
  - intros -> Hunmet. rewrite (calloc_with_unmet _ _ Hunmet).
    eexists _, OutOfBounds. split; [reflexivity|]. split; [reflexivity|].
    split; [reflexivity|]. split; [reflexivity|].
    unfold ht_get, home. simpl.
    destruct (Z.eqb_spec cap 0); [lia|]. simpl.
    destruct fuel as [|fuel]; [lia|].
    apply ht_get_probe_null. reflexivity.
Qed.

Lemma ht_new_map_lookup_witness :
  (exists m, ht_new_map_with plenty 5 = Ret m
             /\ ht_length m = 0
             /\ capacity m = 5
             /\ Z.of_nat (length (ht m)) = 5
             /\ ht_get 1 m asdf = Ret 0)
  /\ (exists m f, ht_new_map_with plenty (2 ^ 62) = Ret m
                  /\ ht_length m = 0
                  /\ capacity m = 2 ^ 62
                  /\ ht m = []
                  /\ ht_get 1 m asdf = Fault f).
Proof.
  split.
  - destruct (ht_new_map_lookup plenty 5 (CString 4128 "asdf") 1)
      as (_ & Hmet & _); [unfold size_t_range; lia|lia|lia|].
    exact (Hmet eq_refl eq_refl).
  - destruct (ht_new_map_lookup plenty (2 ^ 62) (CString 4128 "asdf") 1)
      as (_ & _ & Hnull); [unfold size_t_range; lia|lia|lia|].
    exact (Hnull eq_refl eq_refl).
Defined.

(** X4: under any allocator that met the table of [ht_new_map], every map
    reachable by returning [ht_set] calls has, between two calls, a table
    of exactly [capacity] slots, a capacity below 2^64, at most [ht_length]
    occupied slots, and a non-null key in every occupied slot. *)
Theorem reachable_invariants (avail : allocator) (cap : Z) (m : Map) :
  size_t_range cap -> calloc_met avail cap = true ->
  reachable_with avail cap m ->
  Z.of_nat (length (ht m)) = capacity m
  /\ capacity m < 2 ^ 64
  /\ Z.of_nat (count_occupied (ht m)) <= ht_length m
  /\ (forall (j : nat) (e : ht_entry),
         ht m !! j = Some e -> value e <> 0 -> key e <> None).
Proof.
  intros Hcap Hmet Hreach.
  apply (reachable_with_reachable _ _ _ Hmet) in Hreach.
  destruct (reachable_wf cap m Hcap Hreach) as [[Hlen Hc _ Hocc Hkeyed] _].
  split; [exact Hlen|]. split; [exact Hc|]. split; [exact Hocc|].
  intros j e Hj. unfold keyed in Hkeyed. rewrite Forall_lookup in Hkeyed.
  exact (Hkeyed j e Hj).
Qed.

Lemma reachable_invariants_witness :
  exists m0 m,
    ht_new_map_with plenty 4 = Ret m0
    /\ run_sets_with plenty 8 m0 [(foo, 2); (bar, 1); (bar, 3)] = Ret m
    /\ Z.of_nat (length (ht m)) = capacity m.
Proof.
  eexists _, _. split; [vm_compute; reflexivity|].
  split; [vm_compute; reflexivity|].
  apply (reachable_invariants plenty 4).
  - unfold size_t_range. lia.
  - reflexivity.
  - eapply (reachable_with_run_sets plenty 4 8 [(foo, 2); (bar, 1); (bar, 3)]).
    + apply reach_with_new. vm_compute. reflexivity.
    + vm_compute. reflexivity.
Defined.

(** X9: when the map and the table of [ht_new_map] are allocated, a script
    of [ht_set] calls with non-null values whose length is at most half the
    capacity (so that no call grows the table, and no further request is
    made) returns, keeps the capacity, and leaves a map on which [ht_get] of
    any key returns the value of the last call whose key has the same bytes,
    and [NULL] when there is none. *)
Theorem run_sets_is_a_map (avail : allocator) (cap : Z)
    (script : list (char_ptr * void_ptr)) :
  size_t_range cap -> 0 < cap ->
  Z.of_nat (length script) <= cap / 2 ->
  Forall (fun kv => snd kv <> 0) script ->
  avail sizeof_Map = true -> calloc_met avail cap = true ->
  exists m0 m,
    ht_new_map_with avail cap = Ret m0
    /\ (forall fuel, cap <= Z.of_nat fuel ->
                     run_sets_with avail fuel m0 script = Ret m)
    /\ capacity m = cap
    /\ forall (s : c_string) (fuel : nat),
         cap <= Z.of_nat fuel ->
         ht_get fuel m (Some s) = Ret (last_set script 0 (c_bytes s)).
Proof.
  intros Hr Hpos Hlen Hvals Hmalloc Hmet.
  pose proof (ht_new_map_exact cap Hr Hpos) as Hex.
  destruct (run_sets_exact script (ht_new_map cap) Hex)
    as (m & Hrun & _ & Hcap & Hget); [simpl; lia|exact Hvals|].
  exists (ht_new_map cap), m. split.
  { unfold ht_new_map_with. rewrite Hmalloc, (calloc_with_met _ _ Hmet).
    reflexivity. }
  split; [|split; [exact Hcap|]].
  - intros fuel Hfuel.
    rewrite run_sets_with_exact; [apply Hrun, Hfuel|exact Hex|simpl; lia
                                 |exact Hvals|exact Hfuel].
  - intros s fuel Hfuel. apply (Hget s 0); [|exact Hfuel].
    intros fuel' Hfuel'. apply ht_new_map_get; [assumption|assumption|].
    simpl in Hfuel'. lia.
Qed.

Lemma run_sets_is_a_map_witness :
  exists m0 m,
    ht_new_map_with scarce 4 = Ret m0
    /\ (forall fuel, 4 <= Z.of_nat fuel ->
                     run_sets_with scarce fuel m0 [(bar, 1); (bar', 3)] = Ret m)
    /\ capacity m = 4
    /\ forall (s : c_string) (fuel : nat),
         4 <= Z.of_nat fuel ->
         ht_get fuel m (Some s)
         = Ret (last_set [(bar, 1); (bar', 3)] 0 (c_bytes s)).
Proof.
  apply (run_sets_is_a_map scarce 4 [(bar, 1); (bar', 3)]).
  - unfold size_t_range. lia.
  - lia.
  - vm_compute. discriminate.
  - repeat constructor; simpl; discriminate.
  - reflexivity.
  - reflexivity.
Defined.

(** The copy loop into a null table, by what the old slots hold. *)
Lemma ht_expand_copy_null_keyless (old : list ht_entry) (n : nat) :
  forall i : nat,
    (i + n <= length old)%nat ->
    (forall (j : nat) (e : ht_entry),
        (i <= j < i + n)%nat -> old !! j = Some e -> key e = None) ->
    ht_expand_copy n (Z.of_nat i) old [] = Ret [].
Proof.
  induction n as [|n IH]; intros i Hlen Hkeys; simpl; [reflexivity|].
  destruct (lookup_lt_is_Some_2 old i) as [e He]; [lia|].
  rewrite (slot_of_nat _ _ _ He). simpl.
  rewrite (Hkeys i e) by (lia || exact He).
  replace (Z.of_nat i + 1) with (Z.of_nat (S i)) by lia.
  apply IH; [lia|]. intros j e' Hj. apply Hkeys. lia.
Qed.

Lemma ht_expand_copy_null_keyed (old : list ht_entry) (n : nat) :
  forall i : nat,
    (i + n <= length old)%nat ->
    (exists (j : nat) (e : ht_entry),
        (i <= j < i + n)%nat /\ old !! j = Some e /\ key e <> None) ->
    ht_expand_copy n (Z.of_nat i) old [] = Fault OutOfBounds.
Proof.
  induction n as [|n IH]; intros i Hlen (j & e & Hj & He & Hk); simpl; [lia|].
  destruct (lookup_lt_is_Some_2 old i) as [e0 He0]; [lia|].
  rewrite (slot_of_nat _ _ _ He0). simpl.
  destruct (key e0) eqn:Hk0.
  - unfold store. rewrite slot_null. reflexivity.
  - replace (Z.of_nat i + 1) with (Z.of_nat (S i)) by lia.
    apply IH; [lia|]. exists j, e. split; [|auto].
    destruct (Nat.eq_dec j i) as [->|]; [|lia].
    rewrite He0 in He. injection He as <-. contradiction.
Qed.

(** X11: on a map reachable under an allocator that met the table of
    [ht_new_map] (of positive capacity), with capacity below 2^63, [ht_set]
    with a non-null key returns a non-null pointer, within twice the
    capacity steps, provided the table of the growth is allocated when the
    growth is due; when the growth is due and [calloc] refuses its table,
    [ht_set] does not report it: it faults. *)
Theorem ht_set_succeeds (avail : allocator) (cap : Z) (m : Map)
    (s : c_string) (v : void_ptr) :
  size_t_range cap -> 0 < cap -> calloc_met avail cap = true ->
  reachable_with avail cap m ->
  capacity m < 2 ^ 63 ->
  ((capacity m / 2 <= ht_length m -> calloc_met avail (capacity m * 2) = true) ->
   exists p m',
     forall fuel, capacity m * 2 <= Z.of_nat fuel ->
                  ht_set_with avail fuel m (Some s) v = Ret (Some p, m'))
  /\ (capacity m / 2 <= ht_length m ->
      calloc_met avail (capacity m * 2) = false ->
      forall fuel, (0 < fuel)%nat ->
                   exists f, ht_set_with avail fuel m (Some s) v = Fault f).
Proof.
  intros Hcap Hpos Hmet Hreach Hsmall.
  apply (reachable_with_reachable _ _ _ Hmet) in Hreach.
  pose proof (reachable_positive cap m Hcap Hpos Hreach) as Hpos'.
  assert (Hwrap : wrap64 (capacity m * 2) = capacity m * 2)
    by (unfold wrap64; apply Z.mod_small; lia).
  split.
  - intros Hgrow.
    destruct (ht_set_met_succeeds cap m s v Hcap Hpos Hreach Hsmall)
      as (p & m' & Hset).
    exists p, m'. intros fuel Hfuel. rewrite <- (Hset fuel Hfuel).
    apply ht_set_with_met. intros Hfull. right. rewrite Hwrap. auto.
  - intros Hfull Hunmet [|fuel] Hfuel; [lia|].
    apply ht_set_with_unmet; [exact Hfull|lia|rewrite Hwrap; exact Hunmet].
Qed.

Lemma ht_set_succeeds_witness :
  exists m0 m,
    ht_new_map_with scarce 4 = Ret m0
    /\ run_sets_with scarce 8 m0 [(foo, 2); (bar, 1)] = Ret m
    /\ forall fuel, (0 < fuel)%nat ->
                    exists f, ht_set_with scarce fuel m bar 3 = Fault f.
Proof.
  eexists _, _. split; [vm_compute; reflexivity|].
  split; [vm_compute; reflexivity|].
  apply (ht_set_succeeds scarce 4 _ (CString 4112 "bar") 3).
  - unfold size_t_range. lia.
  - lia.
  - reflexivity.
  - eapply (reachable_with_run_sets scarce 4 8 [(foo, 2); (bar, 1)]).
    + apply reach_with_new. vm_compute. reflexivity.
    + vm_compute. reflexivity.
  - vm_compute. reflexivity.
  - vm_compute. discriminate.
  - reflexivity.
Defined.

(** X12: [ht_expand] on a map of capacity below 2^63 reachable under an
    allocator that met the table of [ht_new_map].  When [calloc] meets the
    request it returns 0, doubles the capacity, keeps [items] and builds a
    table of the new capacity in which the slots below index [items] are the
    old slots at the same index (zeroed when their key is null) and every
    slot from index [items] on is zeroed, whatever the old table held there.
    When [calloc] refuses, it does not return -1: it faults at the first
    slot below [items] that has a key, and when none has it returns 0 with
    the capacity doubled and a null table. *)
Theorem ht_expand_reachable (avail : allocator) (cap : Z) (m : Map) :
  size_t_range cap -> calloc_met avail cap = true ->
  reachable_with avail cap m -> capacity m < 2 ^ 63 ->
  (calloc_met avail (capacity m * 2) = true ->
   exists l,
     ht_expand_with avail m = Ret (0, MkMap l (capacity m * 2) (items m))
     /\ Z.of_nat (length l) = capacity m * 2
     /\ forall i : nat,
          (items m <= Z.of_nat i < capacity m * 2 -> l !! i = Some zero_entry)
          /\ (Z.of_nat i < items m -> l !! i = kept <$> (ht m !! i)))
  /\ (calloc_met avail (capacity m * 2) = false ->
      ((forall (j : nat) (e : ht_entry),
           Z.of_nat j < items m -> ht m !! j = Some e -> key e = None) ->
       ht_expand_with avail m = Ret (0, MkMap [] (capacity m * 2) (items m)))
      /\ ((exists (j : nat) (e : ht_entry),
              Z.of_nat j < items m /\ ht m !! j = Some e /\ key e <> None) ->
          exists f, ht_expand_with avail m = Fault f)).
Proof.
  intros Hcap Hmet Hreach Hsmall.
  apply (reachable_with_reachable _ _ _ Hmet) in Hreach.
  destruct (reachable_wf cap m Hcap Hreach) as [Hwf _].
  pose proof Hwf as [Hlen Hc [H0 Hl] _ _].
  assert (Hhalf : capacity m / 2 <= capacity m)
    by (apply Z.div_le_upper_bound; lia).
  assert (Hwrap : wrap64 (capacity m * 2) = capacity m * 2)
    by (unfold wrap64; apply Z.mod_small; lia).
  split.
  - intros Hgrow. rewrite ht_expand_with_met by (right; rewrite Hwrap; exact Hgrow).
    apply (ht_expand_met_table cap); assumption.
  - intros Hunmet. unfold ht_expand_with. rewrite Hwrap.
    destruct (Z.ltb_spec (capacity m * 2) (capacity m)); [lia|].
    rewrite (calloc_with_unmet _ _ Hunmet).
    pose proof (ht_expand_copy_null_keyless (ht m) (Z.to_nat (ht_length m)) 0)
      as Hless.
    pose proof (ht_expand_copy_null_keyed (ht m) (Z.to_nat (ht_length m)) 0)
      as Hkeyed.
    change (Z.of_nat 0) with 0 in Hless, Hkeyed. unfold ht_length in *.
    split.
    + intros Hkeys. rewrite Hless; [reflexivity|lia|].
      intros j e Hj. apply Hkeys. lia.
    + intros (j & e & Hj & He & Hk).
      rewrite Hkeyed; [eexists; reflexivity|lia|].
      exists j, e. split; [lia|auto].
Qed.

Lemma ht_expand_reachable_witness :
  exists m0 m,
    ht_new_map_with scarce 4 = Ret m0
    /\ run_sets_with scarce 8 m0 [(foo, 2); (bar, 1)] = Ret m
    /\ ((forall (j : nat) (e : ht_entry),
            Z.of_nat j < items m -> ht m !! j = Some e -> key e = None) ->
        ht_expand_with scarce m = Ret (0, MkMap [] (capacity m * 2) (items m))).
Proof.
  eexists _, _. split; [vm_compute; reflexivity|].
  split; [vm_compute; reflexivity|].
  apply (ht_expand_reachable scarce 4).
  - unfold size_t_range. lia.
  - reflexivity.
  - eapply (reachable_with_run_sets scarce 4 8 [(foo, 2); (bar, 1)]).
    + apply reach_with_new. vm_compute. reflexivity.
    + vm_compute. reflexivity.
  - vm_compute. reflexivity.
  - reflexivity.
Defined.

(** X15: on a map built under any allocator that met the table of
    [ht_new_map] (of positive capacity) by a script of [ht_set] calls that
    returned, growth included, [ht_get] of a key whose bytes no call of the
    script used returns [NULL], within [capacity] steps. *)
Theorem ht_get_never_set (avail : allocator) (cap : Z) (fuel : nat)
    (script : list (char_ptr * void_ptr)) (m0 m : Map) (s : c_string) :
  size_t_range cap -> 0 < cap -> calloc_met avail cap = true ->
  ht_new_map_with avail cap = Ret m0 ->
  run_sets_with avail fuel m0 script = Ret m ->
  (forall a v, In (Some a, v) script ->
               strcmp (c_bytes a) (c_bytes s) <> 0) ->
  forall fuel', capacity m <= Z.of_nat fuel' ->
                ht_get fuel' m (Some s) = Ret 0.
Proof.
  intros Hcap Hpos Hmet Hnew Hrun Hnever.
  rewrite (ht_new_map_with_met _ _ _ Hmet Hnew) in Hrun.
  apply run_sets_with_Ret in Hrun.
  exact (run_sets_never_set cap fuel script m s Hcap Hpos Hrun Hnever).
Qed.

Lemma ht_get_never_set_witness :
  exists m0 m,
    ht_new_map_with plenty 4 = Ret m0
    /\ run_sets_with plenty 8 m0 [(foo, 2); (bar, 1); (bar, 3)] = Ret m
    /\ forall fuel', capacity m <= Z.of_nat fuel' -> ht_get fuel' m asdf = Ret 0.
Proof.
  eexists _, _. split; [vm_compute; reflexivity|].
  split; [vm_compute; reflexivity|].
  eapply (ht_get_never_set plenty 4 8 [(foo, 2); (bar, 1); (bar, 3)] _ _
            (CString 4128 "asdf")).
  - unfold size_t_range. lia.
  - lia.
  - reflexivity.
  - vm_compute. reflexivity.
  - vm_compute. reflexivity.
  - intros a v [[= <- _]|[[= <- _]|[[= <- _]|[]]]]; vm_compute; discriminate.
Defined.
